(** * libutil/util.hh: interrupt probe, resource handles, number parsing

  A shallow embedding of the parts of [src/libutil/util.hh] that carry
  behaviour: the inline functions [checkInterrupt], [string2Int] and
  [string2IntWithUnitPrefix], the constructor of [ReceiveInterrupts], the
  default member initialisers of [Pid] and the special members declared
  for [AutoCloseFD], and the templates [concatStringsSep],
  [quoteStrings], [remove_begin], [pop], [MaintainCount] and
  [enumerate].  Functions that the header only declares are modelled
  from the design document and are marked as such. *)

From Stdlib Require Import ZArith String Ascii List Bool Lia.
From stdpp Require Import base gmap.
Import ListNotations.

Local Open Scope Z_scope.

(** ** Failures

  The exception classes the header declares with [MakeError] or as
  classes of their own, as far as the functions below raise them. *)

Inductive exn : Type :=
| Interrupted (msg : string)
| UsageError (msg : string)
| ExecError (status : Z) (msg : string)
| SysError (msg : string).

Inductive result (A : Type) : Type :=
| Ok (a : A)
| Throw (e : exn).

Arguments Ok {A} a.
Arguments Throw {A} e.

(** Signal numbers of <signal.h> (Linux values). *)
Definition SIGINT : Z := 2.
Definition SIGKILL : Z := 9.
Definition SIGUSR1 : Z := 10.

(** ** Characters and strings as the C library sees them ("C" locale) *)

Module CType.

Definition code (c : ascii) : Z := Z.of_N (N_of_ascii c).

Definition in_range (lo hi : Z) (c : ascii) : bool :=
  (lo <=? code c) && (code c <=? hi).

(** [std::isalpha]: letters A-Z and a-z. *)
Definition isalpha (c : ascii) : bool :=
  in_range 65 90 c || in_range 97 122 c.

(** [std::isdigit]. *)
Definition isdigit (c : ascii) : bool := in_range 48 57 c.

(** [std::isspace]: space, \t, \n, \v, \f, \r. *)
Definition isspace (c : ascii) : bool :=
  (code c =? 32) || in_range 9 13 c.

(** [std::toupper]: a-z are mapped to A-Z, everything else is kept. *)
Definition toupper (c : ascii) : ascii :=
  if in_range 97 122 c then ascii_of_N (N_of_ascii c - 32) else c.

(** [*s.rbegin()] on a non-empty string. *)
Fixpoint rbegin (s : string) : option ascii :=
  match s with
  | EmptyString => None
  | String c EmptyString => Some c
  | String _ s' => rbegin s'
  end.

(** [s.resize(s.size() - 1)] on a non-empty string. *)
Fixpoint drop_last (s : string) : string :=
  match s with
  | EmptyString => EmptyString
  | String _ EmptyString => EmptyString
  | String c s' => String c (drop_last s')
  end.

End CType.

(** ** Integer types [N] of the templates

  A template argument [N] is described by what the code asks of it:
  [std::numeric_limits<N>::is_signed] and its width. *)

Record IntType : Type := { is_signed : bool; bits : Z }.

Definition uint32_t : IntType := {| is_signed := false; bits := 32 |}.
Definition uint64_t : IntType := {| is_signed := false; bits := 64 |}.
Definition int32_t : IntType := {| is_signed := true; bits := 32 |}.
Definition int64_t : IntType := {| is_signed := true; bits := 64 |}.

Definition uint8_t : IntType := {| is_signed := false; bits := 8 |}.
Definition int8_t : IntType := {| is_signed := true; bits := 8 |}.
Definition uint16_t : IntType := {| is_signed := false; bits := 16 |}.
Definition int16_t : IntType := {| is_signed := true; bits := 16 |}.

(** [bool] counts as an unsigned integer type with one value bit. *)
Definition bool_t : IntType := {| is_signed := false; bits := 1 |}.

(** The 8-bit types are the character types, which the stream reads as
  characters; [bool] is read and converted in a way of its own. *)
Definition is_char (ty : IntType) : bool := bits ty =? 8.
Definition is_bool (ty : IntType) : bool := negb (is_signed ty) && (bits ty =? 1).

Definition int_max (ty : IntType) : Z :=
  if is_signed ty then 2 ^ (bits ty - 1) - 1 else 2 ^ bits ty - 1.

Definition int_min (ty : IntType) : Z :=
  if is_signed ty then - 2 ^ (bits ty - 1) else 0.

Definition in_type (ty : IntType) (z : Z) : bool :=
  (int_min ty <=? z) && (z <=? int_max ty).

(** Conversion of an integer to [N]: reduction modulo 2^bits, read in two's
  complement for a signed [N]. *)
Definition convert (ty : IntType) (z : Z) : Z :=
  if is_signed ty
  then (z + 2 ^ (bits ty - 1)) mod 2 ^ bits ty - 2 ^ (bits ty - 1)
  else z mod 2 ^ bits ty.

(** ** [std::istringstream] as far as [string2Int] uses it *)

Module IStream.

Record istringstream : Type := { buf : string; failbit : bool }.

Definition open (s : string) : istringstream :=
  {| buf := s; failbit := false |}.

(** [operator bool]: true unless the stream has failed. *)
Definition good (str : istringstream) : bool := negb (failbit str).

(** [str.get()]: the next character, [None] for EOF. *)
Definition get (str : istringstream) : option ascii :=
  if failbit str then None
  else match buf str with EmptyString => None | String c _ => Some c end.

Fixpoint skipws (s : string) : string :=
  match s with
  | String c s' => if CType.isspace c then skipws s' else s
  | EmptyString => EmptyString
  end.

(** The optional sign: [true] for a minus. *)
Definition sign (s : string) : bool * string :=
  match s with
  | String "-"%char s' => (true, s')
  | String "+"%char s' => (false, s')
  | _ => (false, s)
  end.

(** The longest run of decimal digits: its value, its length, the rest. *)
Fixpoint digits (acc : Z) (n : nat) (s : string) : Z * nat * string :=
  match s with
  | String c s' =>
      if CType.isdigit c
      then digits (10 * acc + (CType.code c - 48)) (S n) s'
      else (acc, n, s)
  | EmptyString => (acc, n, s)
  end.

(** [str >> n] for an arithmetic [n] of type [ty] ([short] and wider),
  decimal base: leading white space is skipped, a sign and all following
  digits are consumed; no digit at all, or a value out of the range of
  [ty], sets failbit.  A minus in front of an unsigned value negates it
  in the type. *)
Definition extract_int (ty : IntType) (str : istringstream)
  : istringstream * Z :=
  if failbit str then (str, 0) else
  let '(neg, s2) := sign (skipws (buf str)) in
  let '(v, n, rest) := digits 0 0 s2 in
  match n with
  | O => ({| buf := rest; failbit := true |}, 0)
  | S _ =>
      let limit :=
        if neg && is_signed ty then - int_min ty else int_max ty in
      if limit <? v
      then ({| buf := rest; failbit := true |},
            if neg && is_signed ty then int_min ty else int_max ty)
      else ({| buf := rest; failbit := false |},
            if neg then convert ty (- v) else v)
  end.

(** [str >> n] for [n] of a character type: leading white space is
  skipped and the next character is the value; at the end of the input
  failbit is set. *)
Definition extract_char (ty : IntType) (str : istringstream)
  : istringstream * Z :=
  if failbit str then (str, 0) else
  match skipws (buf str) with
  | EmptyString => ({| buf := EmptyString; failbit := true |}, 0)
  | String c rest =>
      ({| buf := rest; failbit := false |}, convert ty (CType.code c))
  end.

(** [str >> n] for a [bool]: a [long] is read, 0 and 1 are the two
  values, and anything else sets failbit. *)
Definition extract_bool (str : istringstream) : istringstream * Z :=
  let '(str', l) := extract_int int64_t str in
  if failbit str' then (str', 0)
  else if (l =? 0) || (l =? 1) then (str', l)
  else ({| buf := buf str'; failbit := true |}, 1).

(** [str >> n] for [n] of type [ty]. *)
Definition extract (ty : IntType) (str : istringstream)
  : istringstream * Z :=
  if is_char ty then extract_char ty str
  else if is_bool ty then extract_bool str
  else extract_int ty str.

End IStream.

(** ** [string2Int] and [string2IntWithUnitPrefix] *)

Module Parse.

Import IStream.

(** util.hh, [string2Int<N>]. *)
Definition string2Int (ty : IntType) (s : string) : option Z :=
  if String.eqb (String.substring 0 1 s) "-" && negb (is_signed ty)
  then None
  else
    let str := open s in
    let '(str, n) := extract ty str in
    if good str && (match get str with None => true | Some _ => false end)
    then Some n
    else None.

(** What a call of [string2IntWithUnitPrefix] does: it returns, it
    throws, or (signed overflow in the product) its behaviour is
    undefined. *)
Inductive outcome : Type :=
  | Returns (n : Z)
  | Throws (e : exn)
  | Undefined.

(** Conversion of an integer value to [N] as an assignment does it:
  a [bool] is true for everything but 0, the other types reduce modulo
  2^bits. *)
Definition narrow (ty : IntType) (z : Z) : Z :=
  if is_bool ty then (if z =? 0 then 0 else 1) else convert ty z.

(** [a * b] for [a] and [b] of type [N], returned as an [N].  A type
  narrower than [int] is promoted: the product is taken in [int] and
  narrowed on return.  Otherwise it is taken in [N], where it wraps for
  an unsigned [N]; a signed overflow is undefined. *)
Definition mul (ty : IntType) (a b : Z) : outcome :=
  if bits ty <? bits int32_t
  then if in_type int32_t (a * b) then Returns (narrow ty (a * b)) else Undefined
  else if is_signed ty
       then if in_type ty (a * b) then Returns (a * b) else Undefined
       else Returns ((a * b) mod 2 ^ bits ty).

Definition char_eqb (a b : ascii) : bool := Ascii.eqb a b.

(** util.hh, [string2IntWithUnitPrefix<N>]. *)
Definition string2IntWithUnitPrefix (ty : IntType) (s : string) : outcome :=
  let multiplier := narrow ty 1 in
  let step1 : result (Z * string) :=
    match CType.rbegin s with
    | None => Ok (multiplier, s)
    | Some c =>
        let u := CType.toupper c in
        if CType.isalpha u then
          if char_eqb u "K" then Ok (narrow ty (Z.shiftl 1 10), CType.drop_last s)
          else if char_eqb u "M" then Ok (narrow ty (Z.shiftl 1 20), CType.drop_last s)
          else if char_eqb u "G" then Ok (narrow ty (Z.shiftl 1 30), CType.drop_last s)
          else if char_eqb u "T" then Ok (narrow ty (Z.shiftl 1 40), CType.drop_last s)
          else Throw (UsageError
                 ("invalid unit specifier '" ++ String u "'")%string)
        else Ok (multiplier, s)
    end in
  match step1 with
  | Throw e => Throws e
  | Ok (multiplier, s) =>
      match string2Int ty s with
      | Some n => mul ty n multiplier
      | None => Throws (UsageError ("'" ++ s ++ "' is not an integer")%string)
      end
  end.

(** The vocabulary in which [string2IntWithUnitPrefix] is described: the
  unit letters, a trailing letter that is no unit, the string that is
  left to [string2Int] once a unit is stripped, and the exponent of the
  unit. *)
Definition is_unit (u : ascii) : bool :=
  char_eqb u "K" || char_eqb u "M" || char_eqb u "G" || char_eqb u "T".

Definition exponent (u : ascii) : Z :=
  if char_eqb u "K" then 10
  else if char_eqb u "M" then 20
  else if char_eqb u "G" then 30
  else if char_eqb u "T" then 40
  else 0.

Definition invalid_unit (s : string) : Prop :=
  exists c, CType.rbegin s = Some c
          /\ CType.isalpha c = true
          /\ is_unit (CType.toupper c) = false.

Definition stripped (s : string) : string :=
  match CType.rbegin s with
  | Some c => if is_unit (CType.toupper c) then CType.drop_last s else s
  | None => s
  end.

Definition suffix_exponent (s : string) : Z :=
  match CType.rbegin s with
  | Some c => exponent (CType.toupper c)
  | None => 0
  end.

Definition malformed (ty : IntType) (s : string) : Prop :=
  invalid_unit s \/ string2Int ty (stripped s) = None.

End Parse.


(** ** User interruption *)

Module Interrupt.

(** [pthread_t]: a thread of the process. *)
Definition pthread_t : Type := nat.

(** What a callback does to the outside: the signals it sends. *)
Inductive effect : Type :=
| PthreadKill (target : pthread_t) (sig : Z).

(** [std::function<void()>], run for the signals it sends. *)
Definition callback : Type := unit -> list effect.

(** The interrupt state of a process: the flag [_isInterrupted], the
  thread-local [interruptCheck] of every thread (an empty [std::function]
  is [None]) and the registered callbacks in order of registration, each
  under the token its registration handle keeps. *)
Record State : Type := {
  _isInterrupted : bool;
  interruptCheck : pthread_t -> option (unit -> bool);
  _interruptCallbacks : list (nat * callback)
}.

Section Checkpoint.

(** [_interrupted()] is declared in util.hh next to [checkInterrupt] and
  defined elsewhere: what it does when it is reached is a parameter of
  the checkpoint. *)
Variable _interrupted : State -> result unit.

(** util.hh, [checkInterrupt], run by thread [self]. *)
Definition checkInterrupt (self : pthread_t) (st : State) : result unit :=
  if _isInterrupted st
     || (match interruptCheck st self with
         | Some check => check tt
         | None => false
         end)
  then _interrupted st
  else Ok tt.

End Checkpoint.

(** Modelled from the spec: the body of [_interrupted()] is not in
  util.hh; a checkpoint that observes the interruption "raises an
  Interrupted failure". *)
Definition raise_Interrupted (st : State) : result unit :=
  Throw (Interrupted "interrupted by the user").

(** A token no registration of the registry uses. *)
Definition fresh_token (reg : list (nat * callback)) : nat :=
  S (list_max (List.map fst reg)).

(** Modelled from the spec: [createInterruptCallback] is declared in
  util.hh and defined elsewhere; "registerInterruptCallback(fn) ->
  RegistrationHandle", callbacks are kept "in the order of
  registration". *)
Definition createInterruptCallback (cb : callback) (st : State)
  : nat * State :=
  let tok := fresh_token (_interruptCallbacks st) in
  (tok, {| _isInterrupted := _isInterrupted st;
           interruptCheck := interruptCheck st;
           _interruptCallbacks := _interruptCallbacks st ++ [(tok, cb)] |}).

(** Modelled from the spec: the destructor of the registration handle is
  defined elsewhere; "dropping the handle unregisters". *)
Definition dropInterruptCallback (tok : nat) (st : State) : State :=
  {| _isInterrupted := _isInterrupted st;
     interruptCheck := interruptCheck st;
     _interruptCallbacks :=
       List.filter (fun r => negb (Nat.eqb (fst r) tok))
                   (_interruptCallbacks st) |}.

(** The signals sent by one pass over the registry. *)
Definition invoke_all (reg : list (nat * callback)) : list effect :=
  List.concat (List.map (fun r => snd r tt) reg).

(** Modelled from the spec: [triggerInterrupt] is declared in util.hh and
  defined elsewhere; it "sets the process-wide flag" and "invokes every
  currently registered callback in the order of registration". *)
Definition triggerInterrupt (st : State) : State * list effect :=
  ({| _isInterrupted := true;
      interruptCheck := interruptCheck st;
      _interruptCallbacks := _interruptCallbacks st |},
   invoke_all (_interruptCallbacks st)).

(** Modelled from the spec: the listener thread is defined elsewhere; it
  waits for "termination-class signals" (SIGINT, SIGTERM, SIGHUP here)
  and handles one as [triggerInterrupt] does; other signals do not touch
  the interrupt state. *)
Definition is_termination_signal (sig : Z) : bool :=
  (sig =? SIGINT) || (sig =? 15) || (sig =? 1).

(** A signal reaching the listener thread. *)
Definition signalDelivered (sig : Z) (st : State) : State * list effect :=
  if is_termination_signal sig then triggerInterrupt st else (st, []).

(** util.hh, [struct ReceiveInterrupts]. *)
Record ReceiveInterrupts : Type := {
  target : pthread_t;
  callback_token : nat
}.

(** The constructor, run by thread [self] ([pthread_self()]): the lambda
  it registers calls [pthread_kill(target, SIGUSR1)]. *)
Definition ReceiveInterrupts_ctor (self : pthread_t) (st : State)
  : ReceiveInterrupts * State :=
  let target := self in
  let '(tok, st') :=
    createInterruptCallback (fun _ => [PthreadKill target SIGUSR1]) st in
  ({| target := target; callback_token := tok |}, st').

(** The implicit destructor: it destroys the member [callback]. *)
Definition ReceiveInterrupts_dtor (r : ReceiveInterrupts) (st : State)
  : State :=
  dropInterruptCallback (callback_token r) st.

(** The operations a process performs on its interrupt state, and what
  an observer sees of them: the signals sent and the outcome of every
  checkpoint. *)
Inductive op : Type :=
| Signal (sig : Z)
| TriggerInterrupt
| CheckInterrupt (self : pthread_t)
| Construct (self : pthread_t)
| Destroy (r : ReceiveInterrupts).

Inductive event : Type :=
| Sent (e : effect)
| Checked (self : pthread_t) (r : result unit).

Definition step (st : State) (o : op) : State * list event :=
  match o with
  | Signal sig =>
    let '(st', es) := signalDelivered sig st in (st', List.map Sent es)
  | TriggerInterrupt =>
    let '(st', es) := triggerInterrupt st in (st', List.map Sent es)
  | CheckInterrupt self =>
    (st, [Checked self (checkInterrupt raise_Interrupted self st)])
  | Construct self => (snd (ReceiveInterrupts_ctor self st), [])
  | Destroy r => (ReceiveInterrupts_dtor r st, [])
  end.

Fixpoint run (st : State) (ops : list op) : State * list event :=
  match ops with
  | [] => (st, [])
  | o :: ops' =>
    let '(st1, e1) := step st o in
    let '(st2, e2) := run st1 ops' in
    (st2, e1 ++ e2)
  end.

Definition initial : State :=
  {| _isInterrupted := false;
     interruptCheck := fun _ => None;
     _interruptCallbacks := [] |}.

(** [spares r o]: the operation [o] is not the destruction of an object
  holding the registration of [r].  A [ReceiveInterrupts] is destroyed
  once, and its registration handle is not shared. *)
Definition spares (r : ReceiveInterrupts) (o : op) : bool :=
  match o with
  | Destroy r' => negb (Nat.eqb (callback_token r') (callback_token r))
  | _ => true
  end.

(** The registry holds, between [pre] and [post], one registration under
  the token [tok], and none of the others uses [tok]. *)
Definition holds_at (tok : nat) (cb : callback)
    (pre post reg : list (nat * callback)) : Prop :=
  reg = pre ++ (tok, cb) :: post
  /\ Forall (fun x => Nat.eqb (fst x) tok = false) pre
  /\ Forall (fun x => Nat.eqb (fst x) tok = false) post.

End Interrupt.

(** ** [class Pid] *)

Module PidHandle.

(** The system calls a handle issues. *)
Inductive syscall : Type :=
| SysKill (target : Z) (sig : Z)
| SysWaitpid (pid : Z).

Record Pid : Type := {
  pid : Z;
  separatePG : bool;
  killSignal : Z
}.

(** [Pid()]: the default member initialisers of the class, util.hh
  lines 235-237. *)
Definition Pid_default : Pid :=
  {| pid := -1; separatePG := false; killSignal := SIGKILL |}.

(** [Pid(pid_t pid)]: the handle takes the child, the other members keep
  their initialisers. *)
Definition Pid_of (p : Z) : Pid :=
  {| pid := p; separatePG := false; killSignal := SIGKILL |}.

(** The two setters store their argument in the member of their name. *)
Definition setSeparatePG (b : bool) (h : Pid) : Pid :=
  {| pid := pid h; separatePG := b; killSignal := killSignal h |}.

Definition setKillSignal (sig : Z) (h : Pid) : Pid :=
  {| pid := pid h; separatePG := separatePG h; killSignal := sig |}.

(** Modelled from the spec: [Pid::kill] and [Pid::wait] are declared in
  util.hh and defined elsewhere; the handle "sends the configured signal
  and reaps" the child, the signal going to the whole process group when
  the child "belongs to a separate process group". *)
Definition kill (h : Pid) : Pid * list syscall :=
  ({| pid := -1; separatePG := separatePG h; killSignal := killSignal h |},
   [SysKill (if separatePG h then - pid h else pid h) (killSignal h);
    SysWaitpid (pid h)]).

(** Modelled from the spec: [operator =(pid_t)] is defined elsewhere;
  "assigning a new raw value to an already-owning handle first performs
  the owned cleanup of the old value". *)
Definition assign (p : Z) (h : Pid) : Pid * list syscall :=
  if (pid h =? -1) || (pid h =? p)
  then ({| pid := p; separatePG := separatePG h; killSignal := killSignal h |}, [])
  else
    let '(h', calls) := kill h in
    ({| pid := p; separatePG := separatePG h'; killSignal := killSignal h' |},
     calls).

(** The class declares a destructor and neither a copy nor a move
  operation (util.hh, [class Pid]; [operator =(pid_t)] is not a copy
  assignment): its copy constructor is the implicit one, which copies
  every member. *)
Definition Pid_copy (h : Pid) : Pid :=
  {| pid := pid h; separatePG := separatePG h; killSignal := killSignal h |}.

(** Modelled from the spec: [~Pid] is declared in util.hh and defined
  elsewhere; "on destruction, if still owning a live pid, sends the
  configured signal and reaps it". *)
Definition Pid_dtor (h : Pid) : list syscall :=
  if pid h =? -1 then [] else snd (kill h).

End PidHandle.

(** ** [class AutoCloseFD] *)

Module AutoCloseFD.

(** The member [fd] of one handle; [-1] stands for "no resource held".
  Every member function below maps the member to its new value and
  lists the descriptors it passes to [::close]. *)

(** Modelled from the spec: [AutoCloseFD::close] is declared in util.hh
  and defined elsewhere; the handle closes what it owns, once. *)
Definition close (fd : Z) : Z * list Z :=
  if fd =? -1 then (-1, []) else (-1, [fd]).

(** Modelled from the spec: "release() transfers ownership to the caller
  and disarms destruction-time cleanup"; the result is the pair of the
  value returned and the new member. *)
Definition release (fd : Z) : Z * Z := (fd, -1).

(** Modelled from the spec: "get() returns the raw value without
  transferring ownership". *)
Definition get (fd : Z) : Z := fd.

(** Modelled from the spec: "assigning a new raw value to an
  already-owning handle first performs the owned cleanup of the old
  value". *)
Definition assign (fd v : Z) : Z * list Z :=
  let '(_, closes) := close fd in (v, closes).

(** Modelled from the spec: the destructor closes what is still owned. *)
Definition dtor (fd : Z) : list Z := snd (close fd).

(** The operations on one handle between its construction and its
  destruction. *)
Inductive hop : Type :=
| Assign (v : Z)
| Release
| Close
| Get.

Definition hstep (fd : Z) (o : hop) : Z * list Z :=
  match o with
  | Assign v => assign fd v
  | Release => (snd (release fd), [])
  | Close => close fd
  | Get => (get fd, [])
  end.

Fixpoint hrun (fd : Z) (ops : list hop) : Z * list Z :=
  match ops with
  | [] => (fd, [])
  | o :: ops' =>
    let '(fd1, c1) := hstep fd o in
    let '(fd2, c2) := hrun fd1 ops' in
    (fd2, c1 ++ c2)
  end.

(** All [::close] calls of a handle constructed from [fd0], operated on
  by [ops] and then destroyed. *)
Definition lifetime (fd0 : Z) (ops : list hop) : list Z :=
  let '(fd, closes) := hrun fd0 ops in closes ++ dtor fd.

(** How often descriptor [v] is closed in a list of [::close] calls. *)
Definition closes_of (v : Z) (closes : list Z) : nat :=
  List.length (List.filter (Z.eqb v) closes).

(** Several handles: the live objects by name, and the [::close] calls
  issued so far. *)
Record World : Type := {
  live : gmap nat Z;
  closed : list Z
}.

(** The statements of a program over the public interface of the class.
  The copy constructor and the copy assignment are deleted, so there is
  no statement for them. *)
Inductive stmt : Type :=
| New (h : nat)                    (* AutoCloseFD h; *)
| NewFd (h : nat) (v : Z)           (* AutoCloseFD h(v); *)
| NewMove (h src : nat)             (* AutoCloseFD h(std::move(src)); *)
| MoveAssign (h src : nat)          (* h = std::move(src); *)
| AssignFd (h : nat) (v : Z)        (* h = v; *)
| ReleaseOf (h : nat)               (* h.release(); *)
| CloseOf (h : nat)                 (* h.close(); *)
| GetOf (h : nat)                   (* h.get(); *)
| EndOf (h : nat).                  (* h goes out of scope *)

(** Modelled from the spec: the constructors and the move assignment are
  declared in util.hh and defined elsewhere; ownership is "move-only", a
  move hands the descriptor over and leaves the source with "no resource
  held", and an assignment "first performs the owned cleanup of the old
  value".  One statement yields the live handles afterwards and what it
  closes; a statement on a name that is not live, or a declaration of a
  name that is, does not compile and is skipped. *)
Definition exec1 (m : gmap nat Z) (s : stmt) : gmap nat Z * list Z :=
  match s with
  | New h =>
    match m !! h with
    | Some _ => (m, [])
    | None => (<[h := -1]> m, [])
    end
  | NewFd h v =>
    match m !! h with
    | Some _ => (m, [])
    | None => (<[h := v]> m, [])
    end
  | NewMove h src =>
    match m !! h, m !! src with
    | None, Some v => (<[src := -1]> (<[h := v]> m), [])
    | _, _ => (m, [])
    end
  | MoveAssign h src =>
    match m !! h with
    | Some a =>
        let '(a', closes) := close a in
        let m1 := <[h := a']> m in
        match m1 !! src with
        | Some b => (<[src := -1]> (<[h := b]> m1), closes)
        | None => (m, [])
        end
    | None => (m, [])
    end
  | AssignFd h v =>
    match m !! h with
    | Some a => let '(a', closes) := assign a v in (<[h := a']> m, closes)
    | None => (m, [])
    end
  | ReleaseOf h =>
    match m !! h with
    | Some a => (<[h := snd (release a)]> m, [])
    | None => (m, [])
    end
  | CloseOf h =>
    match m !! h with
    | Some a => let '(a', closes) := close a in (<[h := a']> m, closes)
    | None => (m, [])
    end
  | GetOf h => (m, [])
  | EndOf h =>
    match m !! h with
    | Some a => (delete h m, dtor a)
    | None => (m, [])
    end
  end.

Definition exec (w : World) (s : stmt) : World :=
  {| live := fst (exec1 (live w) s);
     closed := closed w ++ snd (exec1 (live w) s) |}.

Definition exec_all (w : World) (p : list stmt) : World :=
  List.fold_left exec p w.

Definition empty_world : World := {| live := ∅; closed := [] |}.

(** No two live handles own the same descriptor. *)
Definition unique_owner (m : gmap nat Z) : Prop :=
  forall h1 h2 v,
    m !! h1 = Some v -> m !! h2 = Some v -> v <> -1 -> h1 = h2.

(** Descriptor [v] is owned by no live handle. *)
Definition unowned (m : gmap nat Z) (v : Z) : Prop :=
  forall h, m !! h <> Some v.

(** A raw descriptor is handed to a handle only when no live handle owns
  it already. *)
Definition wraps_unowned (m : gmap nat Z) (s : stmt) : Prop :=
  match s with
  | NewFd _ v | AssignFd _ v => v = -1 \/ unowned m v
  | _ => True
  end.

Fixpoint wraps_unowned_all (w : World) (p : list stmt) : Prop :=
  match p with
  | [] => True
  | s :: p' => wraps_unowned (live w) s /\ wraps_unowned_all (exec w s) p'
  end.

(** The handle is not given descriptor [fd0] a second time. *)
Definition not_reassigned (fd0 : Z) (o : hop) : Prop :=
  match o with
  | Assign v => v <> fd0
  | _ => True
  end.

(** Whether [release()] is called while the handle, holding [fd] now,
  owns descriptor [fd0]. *)
Fixpoint released_owning (fd0 fd : Z) (ops : list hop) : bool :=
  match ops with
  | [] => false
  | Release :: ops' => (fd =? fd0) || released_owning fd0 (-1) ops'
  | o :: ops' => released_owning fd0 (fst (hstep fd o)) ops'
  end.

End AutoCloseFD.

(** ** Saving and restoring the mount namespace *)

Module MountNamespace.

Definition ns : Type := nat.

(** What the system answers when the process asks to enter namespace
  [n]. *)
Record OS : Type := {
  os_setns : ns -> bool
}.

(** The namespace the process is in, and the snapshot slot. *)
Record State : Type := {
  current : ns;
  fdSavedMountNamespace : option ns
}.

(** Modelled from the spec: [saveMountNamespace] is declared in util.hh
  ("Ignored if called more than once") and defined elsewhere; "the first
  call durably records a reference to the namespace active at that
  moment (e.g., by opening a handle to it); subsequent calls are
  no-ops". *)
Definition saveMountNamespace (st : State) : State :=
  match fdSavedMountNamespace st with
  | Some _ => st
  | None => {| current := current st;
               fdSavedMountNamespace := Some (current st) |}
  end.

(** Modelled from the spec: [restoreMountNamespace] is declared in
  util.hh ("Ignored if saveMountNamespace() was never called") and
  defined elsewhere; "if a snapshot exists, re-enters that namespace". *)
Definition restoreMountNamespace (os : OS) (st : State) : result State :=
  match fdSavedMountNamespace st with
  | Some n =>
    if os_setns os n
    then Ok {| current := n; fdSavedMountNamespace := Some n |}
    else Throw (SysError "restoring parent mount namespace")
  | None => Ok st
  end.

(** Modelled from the spec: the set-up of an isolated child, which "may
  re-associate the calling process with a different mount namespace". *)
Definition unshare (n : ns) (st : State) : State :=
  {| current := n; fdSavedMountNamespace := fdSavedMountNamespace st |}.

Definition bind {A B} (r : result A) (k : A -> result B) : result B :=
  match r with
  | Ok a => k a
  | Throw e => Throw e
  end.


Inductive call : Type :=
| Save
| Restore
| Unshare (n : ns).

Definition do_call (os : OS) (st : State) (c : call) : result State :=
  match c with
  | Save => Ok (saveMountNamespace st)
  | Restore => restoreMountNamespace os st
  | Unshare n => Ok (unshare n st)
  end.

Fixpoint do_calls (os : OS) (st : State) (cs : list call) : result State :=
  match cs with
  | [] => Ok st
  | c :: cs' => bind (do_call os st c) (fun st' => do_calls os st' cs')
  end.

(** A process starts in some namespace with the snapshot slot empty. *)
Definition start (n : ns) : State :=
  {| current := n; fdSavedMountNamespace := None |}.

(** An OS that refuses nothing. *)
Definition permissive : OS :=
  {| os_setns := fun _ => true |}.

End MountNamespace.

(** ** String helpers defined in the header *)

Module Strings.

(** One round of the loop of [concatStringsSep]:
  [if (s.size() != 0) s += sep; s += i;]. *)
Definition round (sep s i : string) : string :=
  ((if negb (Nat.eqb (String.length s) 0) then s ++ sep else s) ++ i)%string.

(** util.hh, [concatStringsSep]: the loop over the container, with the
  accumulator [s] as its state. *)
Definition concatStringsSep (sep : string) (ss : list string) : string :=
  List.fold_left (round sep) ss EmptyString.

(** ["'" + s + "'"]. *)
Definition quote (s : string) : string := ("'" ++ s ++ "'")%string.

(** util.hh, [quoteStrings]: the loop with [res.push_back]. *)
Definition quoteStrings (c : list string) : list string :=
  List.fold_left (fun res s => res ++ [quote s]) c [].

(** What follows a non-empty accumulator: every further element with
  the separator in front of it. *)
Fixpoint with_separators (sep : string) (ss : list string) : string :=
  match ss with
  | [] => EmptyString
  | x :: ss' => (sep ++ x ++ with_separators sep ss')%string
  end.

Definition is_empty (s : string) : bool :=
  match s with EmptyString => true | String _ _ => false end.

(** The container without its leading empty strings. *)
Fixpoint drop_leading_empty (ss : list string) : list string :=
  match ss with
  | [] => []
  | x :: ss' => if is_empty x then drop_leading_empty ss' else ss
  end.

End Strings.

(** ** Container helpers defined in the header *)

Module Containers.

Section Sequence.

Variable A : Type.

(** util.hh, [remove_begin], on a container given by its elements in
  iteration order: the value returned and the container afterwards. *)
Definition remove_begin (c : list A) : option A * list A :=
  match c with
  | [] => (None, c)
  | v :: c' => (Some v, c')
  end.

(** util.hh, [pop], on a [std::queue] given front first. *)
Definition pop (c : list A) : option A * list A :=
  match c with
  | [] => (None, c)
  | v :: c' => (Some v, c')
  end.

(** [std::queue::push]: the element goes to the back. *)
Definition push (x : A) (c : list A) : list A := c ++ [x].

(** The loop [while (auto v = remove_begin(c)) ...], run for at most
  [fuel] rounds: the values taken out and the container left. *)
Fixpoint drain (fuel : nat) (c : list A) : list A * list A :=
  match fuel with
  | O => ([], c)
  | S fuel' =>
      match remove_begin c with
      | (Some v, c') =>
          let '(vs, c'') := drain fuel' c' in (v :: vs, c'')
      | (None, c') => ([], c')
      end
  end.

(** [n] calls of [pop] in a row: what each returned, and the queue
  left. *)
Fixpoint pops (n : nat) (c : list A) : list (option A) * list A :=
  match n with
  | O => ([], c)
  | S n' =>
      let '(r, c') := pop c in
      let '(rs, c'') := pops n' c' in (r :: rs, c'')
  end.

End Sequence.

Arguments remove_begin {A} c.
Arguments pop {A} c.
Arguments push {A} x c.
Arguments drain {A} fuel c.
Arguments pops {A} n c.

End Containers.

(** ** [struct MaintainCount] *)

Module Counting.

(** [long], the type of the member [delta]. *)
Definition long : IntType := int64_t.

(** [counter += d] for a counter of type [T] and a [long] d.  The sum is
  taken in [T] itself when [T] is unsigned and at least as wide as
  [long], where it wraps; otherwise it is taken in [long], where an
  overflow is undefined ([None]), and converted back to [T]. *)
Definition add_assign (ty : IntType) (counter d : Z) : option Z :=
  if negb (is_signed ty) && (bits long <=? bits ty)
  then Some (convert ty (counter + d))
  else if in_type long (counter + d)
       then Some (convert ty (counter + d))
       else None.


(** util.hh, [MaintainCount<T>]: the object keeps [delta]; the counter it
  refers to is passed to and returned by the constructor and the
  destructor. *)
Record MaintainCount : Type := { delta : Z }.

Definition MaintainCount_ctor (ty : IntType) (counter : Z) (d : Z)
  : option (MaintainCount * Z) :=
  match add_assign ty counter d with
  | Some counter' => Some ({| delta := d |}, counter')
  | None => None
  end.



(** Constructing one object per delta, in order. *)
Fixpoint construct_all (ty : IntType) (counter : Z) (ds : list Z)
  : option (list MaintainCount * Z) :=
  match ds with
  | [] => Some ([], counter)
  | d :: ds' =>
      match MaintainCount_ctor ty counter d with
      | Some (m, counter') =>
          match construct_all ty counter' ds' with
          | Some (ms, counter'') => Some (m :: ms, counter'')
          | None => None
          end
      | None => None
      end
  end.


End Counting.

(** ** [enumerate] *)

Module Enumerate.

Section Iterator.

Variable A : Type.

(** The local [struct iterator] of [enumerate]: the running index [i] and
  the underlying iterator, given by its position in the container. *)
Record iterator : Type := { i : nat; iter : nat }.

(** [operator !=] compares the underlying iterators only. *)
Definition neq (a b : iterator) : bool := negb (Nat.eqb (iter a) (iter b)).

(** [operator ++]. *)
Definition incr (a : iterator) : iterator :=
  {| i := S (i a); iter := S (iter a) |}.

(** [operator *]: the index tied to the element; dereferencing the end
  of the container is undefined ([None]). *)
Definition deref (c : list A) (a : iterator) : option (nat * A) :=
  match List.nth_error c (iter a) with
  | Some x => Some (i a, x)
  | None => None
  end.

(** [iterable_wrapper::begin] and [end]: both start the index at 0. *)
Definition begin_ (c : list A) : iterator := {| i := 0; iter := 0 |}.
Definition end_ (c : list A) : iterator :=
  {| i := 0; iter := List.length c |}.

(** The range-based [for] over [enumerate(c)], collecting what the body
  is given; [None] when the fuel runs out or the end is dereferenced. *)
Fixpoint range_for (fuel : nat) (c : list A) (b e : iterator)
  : option (list (nat * A)) :=
  if neq b e then
    match fuel with
    | O => None
    | S fuel' =>
        match deref c b with
        | Some x =>
            match range_for fuel' c (incr b) e with
            | Some xs => Some (x :: xs)
            | None => None
            end
        | None => None
        end
    end
  else Some [].

Definition enumerate (c : list A) : option (list (nat * A)) :=
  range_for (List.length c) c (begin_ c) (end_ c).

End Iterator.

Arguments deref {A} c a.
Arguments begin_ {A} c.
Arguments end_ {A} c.
Arguments range_for {A} fuel c b e.
Arguments enumerate {A} c.

End Enumerate.

(** ** Decimal numerals, to state what [string2Int] accepts *)

Module Numeral.

(** A string of decimal digits only. *)
Fixpoint all_digits (s : string) : bool :=
  match s with
  | EmptyString => true
  | String c s' => CType.isdigit c && all_digits s'
  end.

(** The number a string of decimal digits denotes, most significant
  digit first, continuing from [acc]. *)
Fixpoint decimal_from (acc : Z) (s : string) : Z :=
  match s with
  | EmptyString => acc
  | String c s' => decimal_from (10 * acc + (CType.code c - 48)) s'
  end.

Definition decimal (s : string) : Z := decimal_from 0 s.

(** The first character of a string is [c]. *)
Definition starts_with (c : ascii) (s : string) : bool :=
  match s with
  | String c' _ => Ascii.eqb c' c
  | EmptyString => false
  end.

End Numeral.

(** * Properties *)

(** ** Number parsing *)

Module ParseFacts.

Import Parse.

Lemma substring_first (c : ascii) (s : string) :
  String.substring 0 1 (String c s) = String c EmptyString.
Proof. destruct s; reflexivity. Qed.

Lemma isalpha_toupper (c : ascii) :
  CType.isalpha (CType.toupper c) = CType.isalpha c.
Proof. destruct c as [[] [] [] [] [] [] [] []]; reflexivity. Qed.

Example string2Int_42 : string2Int uint64_t "42" = Some 42.
Proof. reflexivity. Qed.

Example string2Int_trailing_space : string2Int uint64_t "42 " = None.
Proof. reflexivity. Qed.

Example string2Int_signed_minus : string2Int int32_t "-42" = Some (-42).
Proof. reflexivity. Qed.

Example string2Int_out_of_range : string2Int uint32_t "4294967296" = None.
Proof. reflexivity. Qed.

Example string2Int_empty : string2Int uint64_t "" = None.
Proof. reflexivity. Qed.

(** Without the guard of [string2Int] the extraction itself would accept
  a minus in front of an unsigned number and negate in the type. *)
Example extract_minus_wraps :
  IStream.extract uint32_t (IStream.open "-5")
  = ({| IStream.buf := ""; IStream.failbit := false |}, 4294967291).
Proof. reflexivity. Qed.

(** C10: for every string that starts with the character '-' and every
  unsigned integer type N, [string2Int<N>] returns no value: the input is
  rejected before any parsing, it is not wrapped into the range of N. *)
Theorem string2Int_unsigned_minus_nullopt (ty : IntType) (rest : string) :
  is_signed ty = false ->
  string2Int ty (String "-" rest) = None.
Proof.
  intros Hu. unfold string2Int.
  rewrite substring_first, Hu. reflexivity.
Qed.

Lemma string2Int_unsigned_minus_nullopt_witness :
  is_signed uint64_t = false /\ string2Int uint64_t "-5" = None.
Proof.
  split; [reflexivity |].
  apply (string2Int_unsigned_minus_nullopt uint64_t "5"). reflexivity.
Defined.

Lemma is_unit_alpha (u : ascii) : is_unit u = true -> CType.isalpha u = true.
Proof.
  unfold is_unit, char_eqb. intros H.
  repeat (apply orb_true_iff in H; destruct H as [H | H]);
    apply Ascii.eqb_eq in H; subst u; reflexivity.
Qed.

Lemma mul_not_throws (ty : IntType) (a b : Z) (e : exn) :
  mul ty a b <> Throws e.
Proof.
  unfold mul.
  destruct (bits ty <? bits int32_t);
    [destruct (in_type int32_t (a * b)); discriminate |].
  destruct (is_signed ty); [destruct (in_type ty (a * b)) |];
    discriminate.
Qed.

(** The case of a recognised unit letter in the proof below: the input
  has no invalid unit, and both sides compute to the same term. *)
Ltac unit_case :=
  right; split;
  [ let c' := fresh "c" in
    let Hc := fresh "Hc" in
    let Hu := fresh "Hu" in
    intros (c' & Hc & _ & Hu); inversion Hc; subst c';
    unfold is_unit in Hu;
    repeat match goal with
           | H : char_eqb _ _ = _ |- _ => rewrite H in Hu
           end;
    discriminate Hu
  | reflexivity ].

(** What the function does, by cases on its input. *)
Lemma string2IntWithUnitPrefix_cases (ty : IntType) (s : string) :
  (invalid_unit s /\ exists msg,
      string2IntWithUnitPrefix ty s = Throws (UsageError msg))
  \/ (~ invalid_unit s /\
      string2IntWithUnitPrefix ty s =
        match string2Int ty (stripped s) with
        | Some n => mul ty n (narrow ty (Z.shiftl 1 (suffix_exponent s)))
        | None =>
            Throws (UsageError ("'" ++ stripped s ++ "' is not an integer")%string)
        end).
Proof.
  unfold string2IntWithUnitPrefix, invalid_unit, stripped, suffix_exponent.
  destruct (CType.rbegin s) as [c |] eqn:Hr.
  - destruct (CType.isalpha (CType.toupper c)) eqn:Ha.
    + unfold is_unit, exponent.
      destruct (char_eqb (CType.toupper c) "K") eqn:HK; simpl; [unit_case |].
      destruct (char_eqb (CType.toupper c) "M") eqn:HM; simpl; [unit_case |].
      destruct (char_eqb (CType.toupper c) "G") eqn:HG; simpl; [unit_case |].
      destruct (char_eqb (CType.toupper c) "T") eqn:HT; simpl; [unit_case |].
      left. split.
      * exists c. rewrite <- isalpha_toupper. repeat split; try assumption.
        unfold is_unit. rewrite HK, HM, HG, HT. reflexivity.
      * eexists. reflexivity.
    + right. split.
      * intros (c' & Hc' & Hal & _). inversion Hc'; subst c'.
        rewrite isalpha_toupper in Ha. congruence.
      * destruct (is_unit (CType.toupper c)) eqn:Hu.
        { apply is_unit_alpha in Hu. congruence. }
        assert (He : exponent (CType.toupper c) = 0).
        { unfold is_unit in Hu. unfold exponent.
          repeat (apply orb_false_iff in Hu; destruct Hu as [Hu ?]).
          repeat match goal with
                 | H : char_eqb _ _ = false |- _ => rewrite H; clear H
                 end.
          reflexivity. }
        rewrite He. reflexivity.
  - right. split.
    + intros (c' & Hc' & _). discriminate.
    + reflexivity.
Qed.

(** [string2IntWithUnitPrefix] raises UsageError exactly on malformed
  input, and raises nothing else. *)
Lemma string2IntWithUnitPrefix_throws_iff (ty : IntType) (s : string) :
  (exists e, string2IntWithUnitPrefix ty s = Throws e) <-> malformed ty s.
Proof.
  unfold malformed.
  destruct (string2IntWithUnitPrefix_cases ty s) as [[Hi [msg Hm]] | [Hn He]].
  - split; [intros _; left; exact Hi | intros _; eexists; exact Hm].
  - rewrite He. destruct (string2Int ty (stripped s)) as [n |] eqn:Hp.
    + split.
      * intros [e Hc]. exfalso. exact (mul_not_throws _ _ _ _ Hc).
      * intros [Hc | Hc]; [contradiction | discriminate].
    + split; [intros _; right; reflexivity | intros _; eexists; reflexivity].
Qed.

Lemma string2IntWithUnitPrefix_throws_usage (ty : IntType) (s : string) (e : exn) :
  string2IntWithUnitPrefix ty s = Throws e -> exists msg, e = UsageError msg.
Proof.
  destruct (string2IntWithUnitPrefix_cases ty s) as [[Hi [msg Hm]] | [Hn He]].
  - rewrite Hm. intros H. inversion H. eauto.
  - rewrite He. destruct (string2Int ty (stripped s)).
    + intros H. exfalso. exact (mul_not_throws _ _ _ _ H).
    + intros H. inversion H. eauto.
Qed.

Lemma suffix_exponent_nonneg (s : string) : 0 <= suffix_exponent s.
Proof.
  unfold suffix_exponent, exponent.
  destruct (CType.rbegin s) as [c |]; [| lia].
  repeat match goal with |- context [if ?b then _ else _] => destruct b end; lia.
Qed.

Lemma in_type_bounds (ty : IntType) (z : Z) :
  in_type ty z = true -> int_min ty <= z <= int_max ty.
Proof. unfold in_type. intros H. apply andb_true_iff in H. lia. Qed.

Lemma in_type_intro (ty : IntType) (z : Z) :
  int_min ty <= z <= int_max ty -> in_type ty z = true.
Proof.
  intros H. unfold in_type. apply andb_true_iff. split; apply Z.leb_le; lia.
Qed.

(** A type with a value in it has a positive width (two bits or more
  once a signed type holds a positive value). *)
Lemma in_type_width (ty : IntType) (z : Z) :
  in_type ty z = true ->
  if is_signed ty
  then 0 < bits ty /\ - 2 ^ (bits ty - 1) <= z < 2 ^ (bits ty - 1)
       /\ 2 ^ bits ty = 2 * 2 ^ (bits ty - 1)
  else 0 <= z < 2 ^ bits ty.
Proof.
  intros H. apply in_type_bounds in H. unfold int_min, int_max in H.
  destruct (is_signed ty); [| lia].
  assert (Hb : 0 < bits ty).
  { destruct (Z_lt_le_dec 0 (bits ty)) as [| Hle]; [assumption |].
    destruct (Z.eq_dec (bits ty) 0) as [E | E].
    - rewrite E in H. simpl in H. lia.
    - rewrite Z.pow_neg_r in H by lia. lia. }
  split; [exact Hb |]. split; [lia |].
  replace (bits ty) with (Z.succ (bits ty - 1)) at 1 by lia.
  apply Z.pow_succ_r. lia.
Qed.

Lemma convert_within (ty : IntType) (z : Z) :
  in_type ty z = true -> convert ty z = z.
Proof.
  intros H. apply in_type_width in H. unfold convert.
  destruct (is_signed ty).
  - destruct H as (Hb & Hz & E). rewrite Z.mod_small; lia.
  - apply Z.mod_small. exact H.
Qed.

Lemma convert_in_type (ty : IntType) (z : Z) :
  0 < z -> in_type ty z = true -> convert ty z = z.
Proof. intros _. apply convert_within. Qed.

Lemma narrow_within (ty : IntType) (z : Z) :
  in_type ty z = true -> narrow ty z = z.
Proof.
  intros H. unfold narrow. destruct (is_bool ty) eqn:Hb.
  - unfold is_bool in Hb. apply andb_true_iff in Hb. destruct Hb as [Hs Hw].
    apply negb_true_iff in Hs. apply Z.eqb_eq in Hw.
    apply in_type_bounds in H. unfold int_min, int_max in H.
    rewrite Hs, Hw in H. simpl in H.
    destruct (Z.eqb_spec z 0); lia.
  - apply convert_within, H.
Qed.

Lemma pow2_le_31 (b : Z) : b < 32 -> 2 ^ b <= 2 ^ 31.
Proof.
  intros Hb. destruct (Z_lt_le_dec b 0).
  - rewrite Z.pow_neg_r by lia. lia.
  - apply Z.pow_le_mono_r; lia.
Qed.

(** What fits a type narrower than [int] fits [int]. *)
Lemma in_type_promoted (ty : IntType) (z : Z) :
  bits ty < bits int32_t -> in_type ty z = true -> in_type int32_t z = true.
Proof.
  intros Hb H. change (bits int32_t) with 32 in Hb.
  apply in_type_width in H. apply in_type_intro.
  change (int_min int32_t) with (- 2 ^ 31).
  change (int_max int32_t) with (2 ^ 31 - 1).
  destruct (is_signed ty).
  - destruct H as (_ & Hz & _).
    pose proof (pow2_le_31 (bits ty - 1)). lia.
  - pose proof (pow2_le_31 (bits ty) Hb). lia.
Qed.

(** A product that fits the type is returned as it is. *)
Lemma mul_within (ty : IntType) (a b : Z) :
  in_type ty (a * b) = true -> mul ty a b = Returns (a * b).
Proof.
  intros H. unfold mul.
  destruct (Z.ltb_spec (bits ty) (bits int32_t)) as [Hb | Hb].
  - rewrite (in_type_promoted ty _ Hb H), (narrow_within ty _ H). reflexivity.
  - rewrite H. destruct (is_signed ty) eqn:Hs; [reflexivity |].
    apply in_type_width in H. rewrite Hs in H.
    rewrite Z.mod_small by exact H. reflexivity.
Qed.

(** For an unsigned N at least as wide as [int] the value returned is the
  product reduced modulo 2^bits. *)
Lemma string2IntWithUnitPrefix_unsigned (ty : IntType) (s : string) (n : Z) :
  is_signed ty = false -> bits int32_t <= bits ty ->
  ~ invalid_unit s ->
  string2Int ty (stripped s) = Some n ->
  string2IntWithUnitPrefix ty s
  = Returns ((n * 2 ^ suffix_exponent s) mod 2 ^ bits ty).
Proof.
  intros Hu Hb Hv Hp. change (bits int32_t) with 32 in Hb.
  destruct (string2IntWithUnitPrefix_cases ty s) as [[Hi _] | [_ He]];
    [contradiction |].
  rewrite He, Hp. unfold mul, narrow, is_bool, convert. rewrite Hu.
  change (bits int32_t) with 32.
  destruct (Z.ltb_spec (bits ty) 32); [lia |].
  destruct (Z.eqb_spec (bits ty) 1); [lia |]. cbn [negb andb].
  rewrite Z.shiftl_1_l, Z.mul_mod_idemp_r; [reflexivity |].
  apply Z.pow_nonzero; lia.
Qed.

(** As long as the multiplier and the product fit the type, the product
  is returned as it is. *)
Lemma string2IntWithUnitPrefix_in_range (ty : IntType) (s : string) (n : Z) :
  ~ invalid_unit s ->
  string2Int ty (stripped s) = Some n ->
  in_type ty (2 ^ suffix_exponent s) = true ->
  in_type ty (n * 2 ^ suffix_exponent s) = true ->
  string2IntWithUnitPrefix ty s = Returns (n * 2 ^ suffix_exponent s).
Proof.
  intros Hv Hp Hm Hr.
  destruct (string2IntWithUnitPrefix_cases ty s) as [[Hi _] | [_ He]];
    [contradiction |].
  rewrite He, Hp, Z.shiftl_1_l, (narrow_within ty _ Hm).
  apply mul_within, Hr.
Qed.

Example unit_prefix_3k : string2IntWithUnitPrefix uint64_t "3k" = Returns 3072.
Proof. reflexivity. Qed.

Example unit_prefix_no_suffix : string2IntWithUnitPrefix uint64_t "17" = Returns 17.
Proof. reflexivity. Qed.

Example unit_prefix_bad_unit :
  string2IntWithUnitPrefix uint64_t "3x"
  = Throws (UsageError "invalid unit specifier 'X'").
Proof. reflexivity. Qed.

Example unit_prefix_not_integer :
  string2IntWithUnitPrefix uint64_t "abcM"
  = Throws (UsageError "'abc' is not an integer").
Proof. reflexivity. Qed.

Example unit_prefix_signed : string2IntWithUnitPrefix int64_t "-2G" = Returns (-2147483648).
Proof. reflexivity. Qed.

(** C8, as stated, fails where the product does not fit N: for a 64-bit
  unsigned N the input "16777216T" is well formed, parses as 16777216
  with unit T, and the function returns 0, not 16777216 * 2^40; for a
  32-bit unsigned N the input "1T" returns 0, not 2^40. *)
Lemma unit_prefix_product_wraps :
  ~ malformed uint64_t "16777216T"
  /\ string2Int uint64_t (stripped "16777216T") = Some 16777216
  /\ suffix_exponent "16777216T" = 40
  /\ string2IntWithUnitPrefix uint64_t "16777216T" = Returns 0
  /\ 16777216 * 2 ^ 40 <> 0
  /\ string2IntWithUnitPrefix uint32_t "1T" = Returns 0.
Proof.
  split; [| repeat split; try reflexivity; discriminate].
  intros [(c & Hr & _ & Hu) | H]; [| discriminate H].
  inversion Hr; subst c. discriminate Hu.
Qed.

(** C8, amended: [string2IntWithUnitPrefix<N>] raises exactly on
  malformed input (a trailing letter that is none of K, M, G, T in either
  case, or a remaining string that [string2Int<N>] rejects), and what it
  raises is UsageError; otherwise, whenever the multiplier and the
  product are representable in N, it returns the parsed integer
  multiplied by 2^10, 2^20, 2^30 or 2^40 for K, M, G or T, and by 1
  without a suffix. *)
Theorem string2IntWithUnitPrefix_spec (ty : IntType) (s : string) :
  ((exists e, string2IntWithUnitPrefix ty s = Throws e) <-> malformed ty s)
  /\ (forall e, string2IntWithUnitPrefix ty s = Throws e ->
                exists msg, e = UsageError msg)
  /\ (forall n,
        ~ invalid_unit s ->
        string2Int ty (stripped s) = Some n ->
        in_type ty (2 ^ suffix_exponent s) = true ->
        in_type ty (n * 2 ^ suffix_exponent s) = true ->
        string2IntWithUnitPrefix ty s = Returns (n * 2 ^ suffix_exponent s)).
Proof.
  split; [| split].
  - apply string2IntWithUnitPrefix_throws_iff.
  - apply string2IntWithUnitPrefix_throws_usage.
  - intros n. apply string2IntWithUnitPrefix_in_range.
Qed.

Example suffix_exponents :
  suffix_exponent "1k" = 10 /\ suffix_exponent "1M" = 20
  /\ suffix_exponent "1g" = 30 /\ suffix_exponent "1T" = 40
  /\ suffix_exponent "17" = 0.
Proof. repeat split. Qed.

End ParseFacts.

(** ** User interruption *)

Module InterruptFacts.

Import Interrupt.

Local Open Scope nat_scope.

(** C1: [checkInterrupt()] returns normally exactly when the flag
  [_isInterrupted] is unset and the thread-local predicate
  [interruptCheck] is absent or answers false; in every other case it
  ends as [_interrupted()] does, that is, it raises Interrupted. *)
Theorem checkInterrupt_returns_iff
    (_interrupted : State -> result unit) (self : pthread_t) (st : State) :
  (forall st', exists msg, _interrupted st' = Throw (Interrupted msg)) ->
  (checkInterrupt _interrupted self st = Ok tt <->
     _isInterrupted st = false
     /\ (interruptCheck st self = None
         \/ exists check, interruptCheck st self = Some check
                          /\ check tt = false))
  /\ (checkInterrupt _interrupted self st = Ok tt
      \/ exists msg,
           checkInterrupt _interrupted self st = Throw (Interrupted msg)).
Proof.
  intros Hraise. destruct (Hraise st) as [msg Hmsg].
  unfold checkInterrupt.
  destruct (_isInterrupted st); cbn [orb].
  - rewrite Hmsg. split.
    + split; [discriminate | intros [H _]; discriminate].
    + right. exists msg. reflexivity.
  - destruct (interruptCheck st self) as [check |].
    + destruct (check tt) eqn:Hc.
      * rewrite Hmsg. split.
        -- split; [discriminate |].
           intros [_ [H | (c & H & Hf)]]; [discriminate |].
           inversion H; subst c. congruence.
        -- right. exists msg. reflexivity.
      * split.
        -- split; [| reflexivity].
           intros _. split; [reflexivity |]. right. exists check. auto.
        -- left. reflexivity.
    + split.
      * split; [| reflexivity].
        intros _. split; [reflexivity | left; reflexivity].
      * left. reflexivity.
Qed.

Lemma raise_Interrupted_raises (st : State) :
  exists msg, raise_Interrupted st = Throw (Interrupted msg).
Proof. eexists. reflexivity. Qed.

Lemma checkInterrupt_returns_iff_witness :
  let st := fst (triggerInterrupt initial) in
  (forall st', exists msg, raise_Interrupted st' = Throw (Interrupted msg))
  /\ checkInterrupt raise_Interrupted 0 initial = Ok tt
  /\ exists msg,
       checkInterrupt raise_Interrupted 0 st = Throw (Interrupted msg).
Proof.
  intros st. split; [exact raise_Interrupted_raises |]. split.
  - apply (checkInterrupt_returns_iff raise_Interrupted 0 initial
             raise_Interrupted_raises).
    split; [reflexivity | left; reflexivity].
  - destruct (checkInterrupt_returns_iff raise_Interrupted 0 st
                raise_Interrupted_raises) as [Hiff [Hok | Hthrow]].
    + apply Hiff in Hok. destruct Hok as [Hflag _]. discriminate Hflag.
    + exact Hthrow.
Defined.

(** Without an assumption on [_interrupted()]: when nothing asks for an
  interruption the checkpoint returns at once. *)
Lemma checkInterrupt_idle_returns
    (_interrupted : State -> result unit) (self : pthread_t) (st : State) :
  _isInterrupted st = false ->
  (interruptCheck st self = None
   \/ exists check, interruptCheck st self = Some check /\ check tt = false) ->
  checkInterrupt _interrupted self st = Ok tt.
Proof.
  intros Hf Hp. unfold checkInterrupt. rewrite Hf. cbn [orb].
  destruct Hp as [-> | (check & -> & ->)]; reflexivity.
Qed.

Example checkInterrupt_idle : checkInterrupt raise_Interrupted 0 initial = Ok tt.
Proof. reflexivity. Qed.

Example checkInterrupt_after_trigger :
  checkInterrupt raise_Interrupted 0 (fst (triggerInterrupt initial))
  = Throw (Interrupted "interrupted by the user").
Proof. reflexivity. Qed.

Example checkInterrupt_override :
  checkInterrupt raise_Interrupted 1
    {| _isInterrupted := false;
       interruptCheck := fun t => if Nat.eqb t 1 then Some (fun _ => true) else None;
       _interruptCallbacks := [] |}
  = Throw (Interrupted "interrupted by the user").
Proof. reflexivity. Qed.

Lemma triggerInterrupt_sets (st : State) :
  _isInterrupted (fst (triggerInterrupt st)) = true.
Proof. reflexivity. Qed.

Lemma triggerInterrupt_set_id (st : State) :
  _isInterrupted st = true -> fst (triggerInterrupt st) = st.
Proof. destruct st as [f c r]. simpl. intros ->. reflexivity. Qed.

Lemma step_keeps_flag (st : State) (o : op) :
  _isInterrupted st = true -> _isInterrupted (fst (step st o)) = true.
Proof.
  intros H. destruct o as [sig | | self | self | r]; simpl; try assumption.
  - unfold signalDelivered. destruct (is_termination_signal sig); simpl;
      [reflexivity | assumption].
  - reflexivity.
Qed.

Lemma run_keeps_flag (ops : list op) (st : State) :
  _isInterrupted st = true -> _isInterrupted (fst (run st ops)) = true.
Proof.
  revert st. induction ops as [| o ops IH]; intros st H; simpl.
  - assumption.
  - pose proof (step_keeps_flag st o H) as Hs.
    destruct (step st o) as [st1 e1]. simpl in Hs.
    specialize (IH st1 Hs).
    destruct (run st1 ops) as [st2 e2]. exact IH.
Qed.

(** C2: the flag is monotone and one-shot.  Once [_isInterrupted] is set,
  it is still set after every sequence of signal deliveries,
  [triggerInterrupt()] calls, [checkInterrupt()] calls and
  registrations, and a further [triggerInterrupt()] or signal leaves the
  interrupt state as it is. *)
Theorem interrupt_flag_one_shot (st : State) (ops : list op) :
  _isInterrupted st = true ->
  _isInterrupted (fst (run st ops)) = true
  /\ fst (triggerInterrupt st) = st
  /\ (forall sig, fst (signalDelivered sig st) = st).
Proof.
  intros H. split; [| split].
  - apply run_keeps_flag, H.
  - apply triggerInterrupt_set_id, H.
  - intros sig. unfold signalDelivered.
    destruct (is_termination_signal sig);
      [apply triggerInterrupt_set_id, H | reflexivity].
Qed.

Lemma interrupt_flag_one_shot_witness :
  let st := fst (triggerInterrupt initial) in
  let ops := [CheckInterrupt 0; TriggerInterrupt; Signal SIGINT;
              Construct 1; CheckInterrupt 1] in
  _isInterrupted st = true
  /\ _isInterrupted (fst (run st ops)) = true
  /\ fst (triggerInterrupt st) = st
  /\ (forall sig, fst (signalDelivered sig st) = st).
Proof.
  intros st ops. split; [reflexivity |].
  apply (interrupt_flag_one_shot st ops). reflexivity.
Defined.

Lemma fresh_token_unused (reg : list (nat * callback)) :
  Forall (fun r => Nat.eqb (fst r) (fresh_token reg) = false) reg.
Proof.
  unfold fresh_token.
  assert (H : Forall (fun k => (k <= list_max (List.map fst reg))%nat)
                     (List.map fst reg))
    by (apply list_max_le; lia).
  rewrite List.Forall_map in H.
  eapply List.Forall_impl; [| exact H].
  intros r Hr. simpl in Hr. apply Nat.eqb_neq. lia.
Qed.

Lemma filter_keeps_all {A} (f : A -> bool) (l : list A) :
  Forall (fun x => f x = true) l -> List.filter f l = l.
Proof.
  induction 1 as [| x l Hx _ IH]; simpl; [reflexivity |].
  rewrite Hx, IH. reflexivity.
Qed.

Lemma drop_after_create (cb : callback) (st : State) :
  dropInterruptCallback (fst (createInterruptCallback cb st))
                        (snd (createInterruptCallback cb st)) = st.
Proof.
  destruct st as [f c reg]. unfold dropInterruptCallback. simpl.
  rewrite List.filter_app. simpl. rewrite Nat.eqb_refl. simpl.
  rewrite app_nil_r, filter_keeps_all; [reflexivity |].
  eapply List.Forall_impl; [| apply fresh_token_unused].
  intros r Hr. simpl in Hr. rewrite Hr. reflexivity.
Qed.

Lemma filter_keeps_forall {A} (P : A -> Prop) (f : A -> bool) (l : list A) :
  Forall P l -> Forall P (List.filter f l).
Proof.
  induction 1 as [| x l Hx _ IH]; simpl; [constructor |].
  destruct (f x); [constructor |]; assumption.
Qed.

Lemma drop_registered (tok : nat) (cb : callback)
    (pre post : list (nat * callback)) (st : State) :
  holds_at tok cb pre post (_interruptCallbacks st) ->
  _interruptCallbacks (dropInterruptCallback tok st) = pre ++ post.
Proof.
  intros (Hreg & Hpre & Hpost). unfold dropInterruptCallback. simpl.
  rewrite Hreg, List.filter_app. simpl. rewrite Nat.eqb_refl. simpl.
  rewrite !filter_keeps_all; [reflexivity | |].
  - eapply List.Forall_impl; [| exact Hpost].
    intros x Hx. simpl in Hx. rewrite Hx. reflexivity.
  - eapply List.Forall_impl; [| exact Hpre].
    intros x Hx. simpl in Hx. rewrite Hx. reflexivity.
Qed.

(** An operation other than the destruction of [r] leaves the
  registration of [r] where it is: registrations before it can only
  disappear, those after it can disappear or be followed by new ones. *)
Lemma step_keeps_registration (r : ReceiveInterrupts) (cb : callback)
    (st : State) (o : op) (pre post : list (nat * callback)) :
  spares r o = true ->
  holds_at (callback_token r) cb pre post (_interruptCallbacks st) ->
  exists pre' post',
    holds_at (callback_token r) cb pre' post'
             (_interruptCallbacks (fst (step st o))).
Proof.
  intros Hs (Hreg & Hpre & Hpost).
  destruct o as [sig | | self | self | r']; simpl.
  - exists pre, post. unfold signalDelivered.
    destruct (is_termination_signal sig); simpl; repeat split; assumption.
  - exists pre, post. repeat split; assumption.
  - exists pre, post. repeat split; assumption.
  - exists pre.
    exists (post ++ [(fresh_token (_interruptCallbacks st),
                      fun _ => [PthreadKill self SIGUSR1])]).
    split; [| split].
    + rewrite Hreg at 1. rewrite <- List.app_assoc. reflexivity.
    + exact Hpre.
    + apply List.Forall_app. split; [exact Hpost |].
      constructor; [| constructor]. cbn [fst].
      pose proof (fresh_token_unused (_interruptCallbacks st)) as Hf.
      rewrite Hreg in Hf at 1.
      apply List.Forall_app in Hf. destruct Hf as [_ Hf].
      inversion Hf as [| x l Hx _]; subst. simpl in Hx.
      rewrite Nat.eqb_sym. exact Hx.
  - simpl in Hs.
    exists (List.filter (fun x => negb (Nat.eqb (fst x) (callback_token r'))) pre).
    exists (List.filter (fun x => negb (Nat.eqb (fst x) (callback_token r'))) post).
    split; [| split].
    + unfold ReceiveInterrupts_dtor, dropInterruptCallback. simpl.
      rewrite Hreg, List.filter_app. simpl.
      rewrite Nat.eqb_sym, Hs. reflexivity.
    + apply filter_keeps_forall, Hpre.
    + apply filter_keeps_forall, Hpost.
Qed.

Lemma run_keeps_registration (r : ReceiveInterrupts) (cb : callback)
    (ops : list op) :
  forall (st : State) (pre post : list (nat * callback)),
    forallb (spares r) ops = true ->
    holds_at (callback_token r) cb pre post (_interruptCallbacks st) ->
    exists pre' post',
      holds_at (callback_token r) cb pre' post'
               (_interruptCallbacks (fst (run st ops))).
Proof.
  induction ops as [| o ops IH]; intros st pre post Hs H.
  - exists pre, post. exact H.
  - simpl in Hs. apply andb_prop in Hs. destruct Hs as [Ho Hs].
    destruct (step_keeps_registration r cb st o pre post Ho H)
      as (pre1 & post1 & H1).
    simpl. destruct (step st o) as [st1 e1]. simpl in H1.
    specialize (IH st1 pre1 post1 Hs H1).
    destruct (run st1 ops) as [st2 e2]. exact IH.
Qed.

Lemma listener_pass (st : State) :
  snd (signalDelivered SIGINT st) = invoke_all (_interruptCallbacks st).
Proof. reflexivity. Qed.

Lemma invoke_all_app (l1 l2 : list (nat * callback)) :
  invoke_all (l1 ++ l2) = invoke_all l1 ++ invoke_all l2.
Proof.
  unfold invoke_all. rewrite List.map_app, List.concat_app. reflexivity.
Qed.

(** C9: constructing a [ReceiveInterrupts] on thread [self] appends to
  the registry one callback, kept under the token of the new object,
  whose invocation sends SIGUSR1 to [self] and to no other thread; the
  listener's pass on SIGINT therefore signals [self]; destroying the
  object removes that registration and leaves the interrupt state as it
  was before the construction.  The same holds when the object is
  destroyed later: after any signals, triggers, checkpoints,
  constructions and destructions of other objects, the registration is
  still in the registry, the listener's pass still signals [self] at
  its place among the others, and destroying the object removes that
  registration and no other, keeps the order of the others and changes
  nothing else of the interrupt state. *)
Theorem ReceiveInterrupts_registers (self : pthread_t) (st : State) :
  let r := fst (ReceiveInterrupts_ctor self st) in
  let st1 := snd (ReceiveInterrupts_ctor self st) in
  target r = self
  /\ (exists cb,
        _interruptCallbacks st1
        = _interruptCallbacks st ++ [(callback_token r, cb)]
        /\ cb tt = [PthreadKill self SIGUSR1])
  /\ snd (signalDelivered SIGINT st1)
     = snd (signalDelivered SIGINT st) ++ [PthreadKill self SIGUSR1]
  /\ ReceiveInterrupts_dtor r st1 = st
  /\ (forall ops, forallb (spares r) ops = true ->
        let st2 := fst (run st1 ops) in
        exists pre post,
          _interruptCallbacks st2
          = pre ++ (callback_token r,
                    fun _ => [PthreadKill self SIGUSR1]) :: post
          /\ snd (signalDelivered SIGINT st2)
             = invoke_all pre ++ [PthreadKill self SIGUSR1] ++ invoke_all post
          /\ _interruptCallbacks (ReceiveInterrupts_dtor r st2) = pre ++ post
          /\ snd (signalDelivered SIGINT (ReceiveInterrupts_dtor r st2))
             = invoke_all pre ++ invoke_all post
          /\ _isInterrupted (ReceiveInterrupts_dtor r st2) = _isInterrupted st2
          /\ interruptCheck (ReceiveInterrupts_dtor r st2) = interruptCheck st2).
Proof.
  cbv zeta. split; [reflexivity |]. split; [| split; [| split]].
  - eexists. split; reflexivity.
  - rewrite !listener_pass. simpl. rewrite invoke_all_app. reflexivity.
  - unfold ReceiveInterrupts_ctor, ReceiveInterrupts_dtor.
    apply (drop_after_create (fun _ => [PthreadKill self SIGUSR1]) st).
  - intros ops Hops.
    set (r := fst (ReceiveInterrupts_ctor self st)) in *.
    set (st1 := snd (ReceiveInterrupts_ctor self st)).
    assert (H1 : holds_at (callback_token r)
                   (fun _ => [PthreadKill self SIGUSR1])
                   (_interruptCallbacks st) []
                   (_interruptCallbacks st1)).
    { split; [reflexivity |]. split; [| constructor].
      apply fresh_token_unused. }
    destruct (run_keeps_registration r _ ops st1 _ _ Hops H1)
      as (pre & post & H2).
    exists pre, post.
    pose proof (drop_registered _ _ pre post (fst (run st1 ops)) H2) as Hd.
    destruct H2 as (Hreg & _ & _).
    split; [exact Hreg |]. split; [| split; [| split; [| split]]].
    + rewrite listener_pass, Hreg, invoke_all_app. reflexivity.
    + exact Hd.
    + rewrite listener_pass. unfold ReceiveInterrupts_dtor.
      rewrite Hd. apply invoke_all_app.
    + reflexivity.
    + reflexivity.
Qed.

(** Thread 4 and then thread 7 construct their objects; the object of
  thread 4 is destroyed while that of thread 7 is alive. *)
Lemma ReceiveInterrupts_registers_witness :
  let r := fst (ReceiveInterrupts_ctor 4 initial) in
  let st2 := fst (run (snd (ReceiveInterrupts_ctor 4 initial))
                      [Construct 7; Signal SIGINT]) in
  exists pre post,
    _interruptCallbacks st2
    = pre ++ (callback_token r, fun _ => [PthreadKill 4 SIGUSR1]) :: post
    /\ snd (signalDelivered SIGINT (ReceiveInterrupts_dtor r st2))
       = invoke_all pre ++ invoke_all post.
Proof.
  intros r st2.
  destruct (ReceiveInterrupts_registers 4 initial) as (_ & _ & _ & _ & H).
  destruct (H [Construct 7; Signal SIGINT] eq_refl)
    as (pre & post & Hreg & _ & _ & Hd & _).
  exists pre, post. split; [exact Hreg | exact Hd].
Defined.

Example first_receiver_destroyed :
  let r4 := fst (ReceiveInterrupts_ctor 4 initial) in
  snd (run initial [Construct 4; Construct 7; Destroy r4; Signal SIGINT])
  = [Sent (PthreadKill 7 SIGUSR1)].
Proof. reflexivity. Qed.

Example two_receivers :
  snd (run initial [Construct 4; Construct 7; Signal SIGINT])
  = [Sent (PthreadKill 4 SIGUSR1); Sent (PthreadKill 7 SIGUSR1)].
Proof. reflexivity. Qed.

End InterruptFacts.

(** ** Child process handles *)

Module PidFacts.

Import PidHandle.

Example kill_group :
  snd (kill (setKillSignal 15 (setSeparatePG true (Pid_of 4242))))
  = [SysKill (-4242) 15; SysWaitpid 4242].
Proof. reflexivity. Qed.

(** C7: a default-constructed [Pid] holds no child ([pid] is -1), is not
  in a separate process group, and has SIGKILL as its kill signal;
  [kill()] sends the configured signal of the handle to the child it
  owns (to the child's process group when [separatePG] is set), so a
  default-constructed handle that is given a child sends it SIGKILL. *)
Theorem Pid_default_kill :
  pid Pid_default = -1
  /\ separatePG Pid_default = false
  /\ killSignal Pid_default = SIGKILL
  /\ (forall h : Pid,
        snd (kill h)
        = [SysKill (if separatePG h then - pid h else pid h) (killSignal h);
           SysWaitpid (pid h)])
  /\ (forall p : Z,
        snd (kill (fst (assign p Pid_default)))
        = [SysKill p SIGKILL; SysWaitpid p])
  /\ (forall (p sig : Z),
        snd (kill (setKillSignal sig (fst (assign p Pid_default))))
        = [SysKill p sig; SysWaitpid p]).
Proof. repeat split. Qed.

End PidFacts.

(** ** Mount namespace *)

Module MountFacts.

Import MountNamespace.

Local Open Scope nat_scope.


Lemma bind_assoc {A B C} (r : result A) (f : A -> result B) (g : B -> result C) :
  bind (bind r f) g = bind r (fun a => bind (f a) g).
Proof. destruct r; reflexivity. Qed.










Example later_save_is_ignored :
  do_calls permissive (start 1) [Save; Unshare 2; Save; Restore]
  = Ok {| current := 1; fdSavedMountNamespace := Some 1 |}.
Proof. reflexivity. Qed.

Example restore_returns_to_snapshot :
  do_calls permissive (start 1) [Save; Unshare 2; Restore; Restore]
  = Ok {| current := 1; fdSavedMountNamespace := Some 1 |}.
Proof. reflexivity. Qed.

Example restore_without_snapshot :
  do_calls permissive (start 1) [Unshare 2; Restore]
  = Ok {| current := 2; fdSavedMountNamespace := None |}.
Proof. reflexivity. Qed.

End MountFacts.

(** ** File descriptor handles *)

Module AutoCloseFDFacts.

Import AutoCloseFD.

Lemma closes_of_app (v : Z) (l1 l2 : list Z) :
  closes_of v (l1 ++ l2) = (closes_of v l1 + closes_of v l2)%nat.
Proof.
  unfold closes_of. rewrite List.filter_app, List.length_app. reflexivity.
Qed.

Lemma lifetime_cons (fd : Z) (o : hop) (ops : list hop) :
  lifetime fd (o :: ops)
  = snd (hstep fd o) ++ lifetime (fst (hstep fd o)) ops.
Proof.
  unfold lifetime. simpl.
  destruct (hstep fd o) as [fd1 c1]. simpl.
  destruct (hrun fd1 ops) as [fd2 c2].
  rewrite <- app_assoc. reflexivity.
Qed.

Lemma closes_of_close_other (fd0 fd : Z) :
  fd <> fd0 -> closes_of fd0 (snd (close fd)) = 0%nat.
Proof.
  intros Hne. unfold close, closes_of.
  destruct (fd =? -1); simpl; [reflexivity |].
  destruct (Z.eqb_spec fd0 fd); [congruence | reflexivity].
Qed.

Lemma closes_of_close_own (fd0 : Z) :
  fd0 <> -1 -> closes_of fd0 (snd (close fd0)) = 1%nat.
Proof.
  intros Hv. unfold close, closes_of.
  destruct (Z.eqb_spec fd0 (-1)); [contradiction |]. simpl.
  rewrite Z.eqb_refl. reflexivity.
Qed.

Lemma hstep_spec (fd : Z) (o : hop) :
  hstep fd o
  = match o with
    | Assign v => (v, snd (close fd))
    | Release => (-1, [])
    | Close => (-1, snd (close fd))
    | Get => (fd, [])
    end.
Proof.
  destruct o; unfold hstep, assign, close; destruct (fd =? -1); reflexivity.
Qed.

Lemma released_owning_cons (fd0 fd : Z) (o : hop) (ops : list hop) :
  released_owning fd0 fd (o :: ops)
  = match o with
    | Assign v => released_owning fd0 v ops
    | Release => (fd =? fd0) || released_owning fd0 (-1) ops
    | Close => released_owning fd0 (-1) ops
    | Get => released_owning fd0 fd ops
    end.
Proof.
  destruct o; cbn [released_owning]; rewrite ?hstep_spec; reflexivity.
Qed.

(** A handle that does not hold [fd0] never closes it. *)
Lemma lifetime_other (fd0 : Z) (ops : list hop) :
  fd0 <> -1 ->
  Forall (not_reassigned fd0) ops ->
  forall fd, fd <> fd0 ->
    closes_of fd0 (lifetime fd ops) = 0%nat
    /\ released_owning fd0 fd ops = false.
Proof.
  intros Hv Hops. induction Hops as [| o ops Ho _ IH]; intros fd Hne.
  - split; [| reflexivity].
    unfold lifetime, hrun, dtor. apply closes_of_close_other, Hne.
  - rewrite lifetime_cons, closes_of_app, released_owning_cons, hstep_spec.
    pose proof (closes_of_close_other fd0 fd Hne) as Hc0.
    assert (Hm : -1 <> fd0) by congruence.
    destruct o as [v | | |]; cbn [fst snd not_reassigned] in *.
    + destruct (IH v Ho) as [Hc Hr]. rewrite Hc0, Hc, Hr. split; reflexivity.
    + destruct (IH (-1) Hm) as [Hc Hr]. rewrite Hc, Hr.
      destruct (Z.eqb_spec fd fd0); [contradiction |]. split; reflexivity.
    + destruct (IH (-1) Hm) as [Hc Hr]. rewrite Hc0, Hc, Hr. split; reflexivity.
    + destruct (IH fd Hne) as [Hc Hr]. rewrite Hc, Hr. split; reflexivity.
Qed.

(** The handle that holds [fd0] closes it once, unless it is released
  while it holds it. *)
Lemma lifetime_own (fd0 : Z) (ops : list hop) :
  fd0 <> -1 ->
  Forall (not_reassigned fd0) ops ->
  closes_of fd0 (lifetime fd0 ops)
  = if released_owning fd0 fd0 ops then 0%nat else 1%nat.
Proof.
  intros Hv Hops. induction Hops as [| o ops Ho Hops IH].
  - unfold lifetime, hrun, dtor. apply closes_of_close_own, Hv.
  - rewrite lifetime_cons, closes_of_app, released_owning_cons, hstep_spec.
    pose proof (closes_of_close_own fd0 Hv) as Hc1.
    assert (Hm : -1 <> fd0) by congruence.
    destruct o as [v | | |]; cbn [fst snd not_reassigned] in *.
    + destruct (lifetime_other fd0 ops Hv Hops v Ho) as [Hc Hr].
      rewrite Hc1, Hc, Hr. reflexivity.
    + destruct (lifetime_other fd0 ops Hv Hops (-1) Hm) as [Hc _].
      rewrite Hc, Z.eqb_refl. reflexivity.
    + destruct (lifetime_other fd0 ops Hv Hops (-1) Hm) as [Hc Hr].
      rewrite Hc1, Hc, Hr. reflexivity.
    + exact IH.
Qed.

Lemma released_owning_no_release (fd0 : Z) (ops : list hop) :
  ~ In Release ops -> forall fd, released_owning fd0 fd ops = false.
Proof.
  induction ops as [| o ops IH]; intros Hn fd; [reflexivity |].
  destruct o; simpl; try (apply IH; intros H; apply Hn; right; exact H).
  exfalso. apply Hn. left. reflexivity.
Qed.

Example lifetime_plain : lifetime 3 [Get; Get] = [3].
Proof. reflexivity. Qed.

Example lifetime_assign : lifetime 3 [Assign 5; Get] = [3; 5].
Proof. reflexivity. Qed.

Example lifetime_release : lifetime 3 [Release; Get] = [].
Proof. reflexivity. Qed.

(** C4, as stated, fails on two kinds of sequences.  A handle that owns
  descriptor 3 and is released and destroyed closes 3 not once but
  never; a handle that owns descriptor 3 and is assigned 3 again closes
  it at the assignment and once more at its destruction. *)
Lemma released_handle_closes_nothing :
  3 <> -1
  /\ closes_of 3 (lifetime 3 [Release]) = 0%nat
  /\ closes_of 3 (lifetime 3 [Assign 3]) = 2%nat.
Proof. split; [lia | split; reflexivity]. Qed.

(** C4, amended: for all sequences of assign/release/close/get
  operations on one AutoCloseFD owning a valid descriptor, in which that
  descriptor is not assigned to the handle again, followed by the
  destruction of the handle, the descriptor is closed exactly once, or
  not at all when [release()] is called while the handle owns it; and
  after [release()] has been called the handle never closes it. *)
Theorem AutoCloseFD_closes_once (fd0 : Z) (ops : list hop) :
  fd0 <> -1 ->
  Forall (not_reassigned fd0) ops ->
  closes_of fd0 (lifetime fd0 ops)
  = (if released_owning fd0 fd0 ops then 0%nat else 1%nat)
  /\ (~ In Release ops -> closes_of fd0 (lifetime fd0 ops) = 1%nat)
  /\ (forall pre post, ops = pre ++ Release :: post ->
        closes_of fd0 (lifetime (fst (hrun fd0 pre)) (Release :: post)) = 0%nat).
Proof.
  intros Hv Hops. split; [| split].
  - apply lifetime_own; assumption.
  - intros Hn. rewrite (lifetime_own fd0 ops Hv Hops).
    rewrite (released_owning_no_release fd0 ops Hn). reflexivity.
  - intros pre post ->.
    apply List.Forall_app in Hops. destruct Hops as [_ Hpost].
    inversion Hpost as [| o l _ Hpost' ]; subst.
    rewrite lifetime_cons, closes_of_app, hstep_spec. cbn [fst snd].
    destruct (lifetime_other fd0 post Hv Hpost' (-1)) as [Hc _]; [congruence |].
    exact Hc.
Qed.

Lemma AutoCloseFD_closes_once_witness :
  let ops := [Get; Release; Assign 7; Close] in
  5 <> -1
  /\ Forall (not_reassigned 5) ops
  /\ closes_of 5 (lifetime 5 ops) = 0%nat.
Proof.
  intros ops.
  assert (Hv : 5 <> -1) by lia.
  assert (Hops : Forall (not_reassigned 5) ops).
  { unfold ops.
    repeat (apply List.Forall_cons; [simpl; try lia; exact I |]).
    apply List.Forall_nil. }
  split; [exact Hv |]. split; [exact Hops |].
  exact (proj1 (AutoCloseFD_closes_once 5 ops Hv Hops)).
Defined.

(** *** Several handles *)

Lemma close_cases (a : Z) :
  (a = -1 /\ close a = (-1, [])) \/ (a <> -1 /\ close a = (-1, [a])).
Proof.
  unfold close. destruct (Z.eqb_spec a (-1)); [left | right]; auto.
Qed.

Ltac lookups :=
  repeat match goal with
         | H : context [<[_ := _]> _ !! _] |- _ => rewrite lookup_insert in H
         | H : context [delete _ _ !! _] |- _ => rewrite lookup_delete in H
         | H : context [decide ?P] |- _ => destruct (decide P)
         | H : Some _ = Some _ |- _ => inversion H; clear H
         | H : None = Some _ |- _ => discriminate H
         end; subst.

Ltac owner_clash Hu Hw :=
  try congruence;
  try (eapply Hu; eauto; fail);
  try (exfalso;
       match goal with
       | n : _ <> _ |- _ =>
           apply n;
           first [ eapply Hu; eauto; fail
                 | symmetry; eapply Hu; eauto; fail ]
       end);
  try (destruct Hw as [-> | Hw];
       [congruence | exfalso; eapply Hw; eauto; fail]).

(** Every statement keeps the handles apart, as long as a raw descriptor
  is not wrapped while a live handle owns it. *)
Lemma exec1_unique (m : gmap nat Z) (s : stmt) :
  unique_owner m -> wraps_unowned m s -> unique_owner (fst (exec1 m s)).
Proof.
  intros Hu Hw.
  destruct s as [h | h v | h src | h src | h v | h | h | h | h];
    cbn [exec1 wraps_unowned] in *.
  - destruct (m !! h) eqn:Hh; [exact Hu |].
    intros h1 h2 v H1 H2 Hv. cbn [fst] in *. lookups; owner_clash Hu Hw.
  - destruct (m !! h) eqn:Hh; [exact Hu |].
    intros h1 h2 x H1 H2 Hv. cbn [fst] in *. lookups; owner_clash Hu Hw.
  - destruct (m !! h) eqn:Hh; [exact Hu |].
    destruct (m !! src) as [v |] eqn:Hs; [| exact Hu].
    intros h1 h2 x H1 H2 Hv. cbn [fst] in *. lookups; owner_clash Hu Hw.
  - destruct (m !! h) as [a |] eqn:Hh; [| exact Hu].
    destruct (close_cases a) as [[Ha Hc] | [Ha Hc]]; rewrite Hc;
      (destruct (<[h := -1]> m !! src) as [b |] eqn:Hs; [| exact Hu]);
      intros h1 h2 x H1 H2 Hv; cbn [fst] in *; lookups; owner_clash Hu Hw.
  - destruct (m !! h) as [a |] eqn:Hh; [| exact Hu].
    unfold assign. destruct (close a) as [a' closes].
    intros h1 h2 x H1 H2 Hv. cbn [fst] in *. lookups; owner_clash Hu Hw.
  - destruct (m !! h) as [a |] eqn:Hh; [| exact Hu].
    intros h1 h2 x H1 H2 Hv. cbn [fst snd release] in *.
    lookups; owner_clash Hu Hw.
  - destruct (m !! h) as [a |] eqn:Hh; [| exact Hu].
    destruct (close_cases a) as [[Ha Hc] | [Ha Hc]]; rewrite Hc;
      intros h1 h2 x H1 H2 Hv; cbn [fst] in *; lookups; owner_clash Hu Hw.
  - exact Hu.
  - destruct (m !! h) as [a |] eqn:Hh; [| exact Hu].
    intros h1 h2 x H1 H2 Hv. cbn [fst] in *. lookups; owner_clash Hu Hw.
Qed.

Ltac no_close := cbn [snd In]; intros [].

(** What a statement closes is owned by no live handle afterwards. *)
Lemma exec1_closed_unowned (m : gmap nat Z) (s : stmt) (v : Z) :
  unique_owner m -> wraps_unowned m s ->
  In v (snd (exec1 m s)) -> unowned (fst (exec1 m s)) v.
Proof.
  intros Hu Hw.
  destruct s as [h | h x | h src | h src | h x | h | h | h | h];
    cbn [exec1 wraps_unowned] in *.
  - destruct (m !! h); no_close.
  - destruct (m !! h); no_close.
  - destruct (m !! h); destruct (m !! src); no_close.
  - destruct (m !! h) as [a |] eqn:Hh; [| no_close].
    destruct (close_cases a) as [[Ha Hc] | [Ha Hc]]; rewrite Hc;
      (destruct (<[h := -1]> m !! src) as [b |] eqn:Hs; [| no_close]);
      [no_close |].
    cbn [fst snd In]. intros [<- | []] h' Hl. lookups; owner_clash Hu Hw.
  - destruct (m !! h) as [a |] eqn:Hh; [| no_close].
    unfold assign.
    destruct (close_cases a) as [[Ha Hc] | [Ha Hc]]; rewrite Hc; [no_close |].
    cbn [fst snd In]. intros [<- | []] h' Hl. lookups; owner_clash Hu Hw.
  - destruct (m !! h); no_close.
  - destruct (m !! h) as [a |] eqn:Hh; [| no_close].
    destruct (close_cases a) as [[Ha Hc] | [Ha Hc]]; rewrite Hc; [no_close |].
    cbn [fst snd In]. intros [<- | []] h' Hl. lookups; owner_clash Hu Hw.
  - no_close.
  - destruct (m !! h) as [a |] eqn:Hh; [| no_close].
    unfold dtor.
    destruct (close_cases a) as [[Ha Hc] | [Ha Hc]]; rewrite Hc; [no_close |].
    cbn [fst snd In]. intros [<- | []] h' Hl. lookups; owner_clash Hu Hw.
Qed.

Lemma unique_owner_empty : unique_owner ∅.
Proof. intros h1 h2 v H. rewrite lookup_empty in H. discriminate. Qed.

Lemma exec_all_unique (p : list stmt) (w : World) :
  unique_owner (live w) -> wraps_unowned_all w p ->
  unique_owner (live (exec_all w p)).
Proof.
  revert w. induction p as [| s p IH]; intros w Hu Hw; [exact Hu |].
  destruct Hw as [Hs Hp]. apply IH; [| exact Hp].
  apply exec1_unique; assumption.
Qed.

Example move_transfers :
  exec_all empty_world [NewFd 0 3; NewMove 1 0; EndOf 0; EndOf 1]
  = {| live := ∅; closed := [3] |}.
Proof. reflexivity. Qed.

(** C5, as stated, fails twice.  The interface of AutoCloseFD also
  wraps raw descriptors, and two handles constructed from the same raw
  descriptor both own it (and both close it when they go out of scope).
  And not every resource handle is move-only: [Pid] has no deleted copy
  member, so a [Pid] owning child 4242 can be copied, both objects own
  that child, and each of them kills and reaps it when it is
  destroyed. *)
Lemma same_raw_descriptor_two_owners :
  ~ unique_owner (live (exec_all empty_world [NewFd 0 3; NewFd 1 3]))
  /\ closed (exec_all empty_world [NewFd 0 3; NewFd 1 3; EndOf 0; EndOf 1])
     = [3; 3]
  /\ (let h := PidHandle.Pid_of 4242 in
      PidHandle.pid (PidHandle.Pid_copy h) = PidHandle.pid h
      /\ PidHandle.Pid_dtor (PidHandle.Pid_copy h) ++ PidHandle.Pid_dtor h
         = [PidHandle.SysKill 4242 SIGKILL; PidHandle.SysWaitpid 4242;
            PidHandle.SysKill 4242 SIGKILL; PidHandle.SysWaitpid 4242]).
Proof.
  split; [| split; [reflexivity | split; reflexivity]].
  intros H. specialize (H 0%nat 1%nat 3).
  assert (E : 0%nat = 1%nat) by (apply H; [reflexivity | reflexivity | lia]).
  discriminate E.
Qed.

(** A move construction hands the descriptor of the source to the new
  handle and leaves the source empty; it closes nothing and touches no
  other handle. *)
Lemma move_construct (w : World) (h src : nat) (v : Z) :
  live w !! h = None -> live w !! src = Some v ->
  let w' := exec w (NewMove h src) in
  live w' !! h = Some v
  /\ live w' !! src = Some (-1)
  /\ closed w' = closed w
  /\ (forall h', h' <> h -> h' <> src -> live w' !! h' = live w !! h').
Proof.
  intros Hh Hs. assert (Hne : src <> h) by congruence.
  unfold exec. cbn [exec1 live closed]. rewrite Hh, Hs. cbn [fst snd].
  split; [| split; [| split]].
  - rewrite lookup_insert_ne by exact Hne. apply lookup_insert_eq.
  - apply lookup_insert_eq.
  - apply app_nil_r.
  - intros h' H1 H2.
    rewrite lookup_insert_ne by congruence.
    apply lookup_insert_ne. congruence.
Qed.

(** A move assignment closes what the target owns, hands the descriptor
  of the source to the target and leaves the source empty; it touches
  no other handle. *)
Lemma move_assign (w : World) (h src : nat) (a b : Z) :
  h <> src -> live w !! h = Some a -> live w !! src = Some b ->
  let w' := exec w (MoveAssign h src) in
  live w' !! h = Some b
  /\ live w' !! src = Some (-1)
  /\ closed w' = closed w ++ (if a =? -1 then [] else [a])
  /\ (forall h', h' <> h -> h' <> src -> live w' !! h' = live w !! h').
Proof.
  intros Hne Hh Hs.
  unfold exec. cbn [exec1 live closed]. rewrite Hh.
  assert (Hc : close a = (-1, if a =? -1 then [] else [a]))
    by (unfold close; destruct (a =? -1); reflexivity).
  rewrite Hc. cbv zeta.
  rewrite (lookup_insert_ne (live w) h src (-1) Hne), Hs. cbn [fst snd].
  split; [| split; [| split]].
  - rewrite lookup_insert_ne by congruence. apply lookup_insert_eq.
  - apply lookup_insert_eq.
  - reflexivity.
  - intros h' H1 H2.
    rewrite !lookup_insert_ne by congruence. reflexivity.
Qed.

(** C5, amended: AutoCloseFD is move-only: copying an AutoCloseFD (copy
  construction and copy assignment) is forbidden by the type, so the
  programs over its public interface have no copy statement, and its
  move construction and move assignment hand the descriptor of the
  source over and leave the source empty.  For every such program that
  wraps or assigns a raw descriptor only while no live handle owns it,
  no two live handles own the same descriptor, and whatever descriptor
  the next statement closes is owned by no live handle afterwards, so
  that no handle closes it a second time. *)
Theorem AutoCloseFD_move_only (p : list stmt) :
  wraps_unowned_all empty_world p ->
  let w := exec_all empty_world p in
  unique_owner (live w)
  /\ (forall s v,
        wraps_unowned (live w) s ->
        In v (snd (exec1 (live w) s)) ->
        unowned (live (exec w s)) v)
  /\ (forall h src v,
        live w !! h = None -> live w !! src = Some v ->
        let w' := exec w (NewMove h src) in
        live w' !! h = Some v
        /\ live w' !! src = Some (-1)
        /\ closed w' = closed w
        /\ (forall h', h' <> h -> h' <> src ->
                       live w' !! h' = live w !! h'))
  /\ (forall h src a b,
        h <> src -> live w !! h = Some a -> live w !! src = Some b ->
        let w' := exec w (MoveAssign h src) in
        live w' !! h = Some b
        /\ live w' !! src = Some (-1)
        /\ closed w' = closed w ++ (if a =? -1 then [] else [a])
        /\ (forall h', h' <> h -> h' <> src ->
                       live w' !! h' = live w !! h')).
Proof.
  intros Hw w.
  assert (Hu : unique_owner (live w))
    by (apply exec_all_unique; [apply unique_owner_empty | exact Hw]).
  split; [exact Hu |]. split; [| split].
  - intros s v Hs Hin. apply exec1_closed_unowned; assumption.
  - intros h src v. apply move_construct.
  - intros h src a b. apply move_assign.
Qed.

Lemma AutoCloseFD_move_only_witness :
  let p := [NewFd 0 3; NewFd 1 5; New 2] in
  let w := exec_all empty_world p in
  wraps_unowned_all empty_world p
  /\ unique_owner (live w)
  /\ live (exec w (MoveAssign 1 0)) !! 1%nat = Some 3
  /\ live (exec w (MoveAssign 1 0)) !! 0%nat = Some (-1)
  /\ closed (exec w (MoveAssign 1 0)) = [5].
Proof.
  intros p w.
  assert (Hw : wraps_unowned_all empty_world p).
  { unfold p. cbn [wraps_unowned_all wraps_unowned].
    split; [| split; [| split; exact I]].
    - right. intros h. simpl. rewrite lookup_empty. discriminate.
    - right. intros h.
      change (live (exec empty_world (NewFd 0 3)))
        with (<[0%nat := 3]> (∅ : gmap nat Z)).
      rewrite lookup_insert.
      destruct (decide (0%nat = h)); [discriminate |].
      rewrite lookup_empty. discriminate. }
  destruct (AutoCloseFD_move_only p Hw) as (Hu & _ & _ & Hm).
  assert (Hne : 1%nat <> 0%nat) by discriminate.
  destruct (Hm 1%nat 0%nat 5 3 Hne eq_refl eq_refl) as (H1 & H0 & Hc & _).
  split; [exact Hw |]. split; [exact Hu |].
  split; [exact H1 |]. split; [exact H0 | exact Hc].
Defined.

End AutoCloseFDFacts.

(** ** String helpers *)

Module StringsFacts.

Import Strings.

Local Open Scope string_scope.

Lemma append_cons (c : ascii) (s t : string) :
  String c s ++ t = String c (s ++ t).
Proof. reflexivity. Qed.

Lemma append_nil_l (s : string) : "" ++ s = s.
Proof. reflexivity. Qed.

Lemma append_nil_r (s : string) : s ++ "" = s.
Proof.
  induction s as [| c s IH]; [reflexivity |].
  rewrite append_cons, IH. reflexivity.
Qed.

Lemma append_assoc (s t u : string) : (s ++ t) ++ u = s ++ (t ++ u).
Proof.
  induction s as [| c s IH]; [reflexivity |].
  rewrite !append_cons, IH. reflexivity.
Qed.

Lemma append_eq_nil (s t : string) : s ++ t = "" -> s = "" /\ t = "".
Proof.
  destruct s as [| c s]; [rewrite append_nil_l; auto |].
  rewrite append_cons. discriminate.
Qed.

Lemma append_inv_char (s t : string) (c : ascii) :
  s ++ String c "" = t ++ String c "" -> s = t.
Proof.
  revert t. induction s as [| a s IH]; intros [| b t] H;
    rewrite ?append_cons, ?append_nil_l in H.
  - reflexivity.
  - inversion H as [[Ha Ht]]. destruct t; discriminate Ht.
  - inversion H as [[Ha Hs]]. destruct s; discriminate Hs.
  - inversion H. f_equal. apply IH. assumption.
Qed.

Lemma round_nonempty (sep s i : string) :
  s <> "" -> round sep s i = s ++ sep ++ i /\ round sep s i <> "".
Proof.
  intros Hs. unfold round. destruct s as [| c s]; [contradiction |].
  change (negb (Nat.eqb (String.length (String c s)) 0)) with true.
  cbv iota. rewrite append_assoc. split; [reflexivity |].
  rewrite append_cons. discriminate.
Qed.

Lemma loop_nonempty (sep : string) (ss : list string) (acc : string) :
  acc <> "" ->
  List.fold_left (round sep) ss acc = acc ++ with_separators sep ss.
Proof.
  revert acc. induction ss as [| x ss IH]; intros acc Hacc.
  - symmetry. apply append_nil_r.
  - destruct (round_nonempty sep acc x Hacc) as [E Hne].
    change (List.fold_left (round sep) ss (round sep acc x)
            = acc ++ sep ++ x ++ with_separators sep ss).
    rewrite (IH _ Hne), E, !append_assoc. reflexivity.
Qed.

Lemma concat_cons (sep x : string) (ss : list string) :
  String.concat sep (x :: ss) = x ++ with_separators sep ss.
Proof.
  revert x. induction ss as [| y ss IH]; intros x.
  - symmetry. apply append_nil_r.
  - change (String.concat sep (x :: y :: ss))
      with (x ++ sep ++ String.concat sep (y :: ss)).
    rewrite IH. reflexivity.
Qed.

Lemma loop_from_empty (sep : string) (ss : list string) :
  List.fold_left (round sep) ss "" = String.concat sep (drop_leading_empty ss).
Proof.
  induction ss as [| x ss IH]; [reflexivity |].
  destruct x as [| c x].
  - exact IH.
  - change (List.fold_left (round sep) ss (String c x)
            = String.concat sep (String c x :: ss)).
    rewrite loop_nonempty by discriminate.
    symmetry. apply concat_cons.
Qed.

Example concatStringsSep_plain : concatStringsSep ", " ["a"; "b"; "c"] = "a, b, c".
Proof. reflexivity. Qed.

Example concatStringsSep_leading_empty :
  concatStringsSep "," [""; ""; "a"; ""; "b"] = "a,,b".
Proof. reflexivity. Qed.

(** X1: [concatStringsSep] puts the separator in front of an element only
  once the result so far is non-empty: it is the usual join of the
  container without its leading empty strings, and so the usual join of
  the container itself whenever the first element is non-empty. *)
Theorem concatStringsSep_join (sep : string) (ss : list string) :
  concatStringsSep sep ss = String.concat sep (drop_leading_empty ss)
  /\ (forall x ss', ss = x :: ss' -> x <> "" ->
        concatStringsSep sep ss = String.concat sep ss).
Proof.
  split.
  - apply loop_from_empty.
  - intros x ss' -> Hx. unfold concatStringsSep.
    rewrite loop_from_empty. destruct x; [contradiction | reflexivity].
Qed.

Lemma drop_leading_empty_nil (ss : list string) :
  drop_leading_empty ss = [] <-> List.Forall (fun s => s = "") ss.
Proof.
  induction ss as [| x ss IH].
  - split; [constructor | reflexivity].
  - destruct x as [| c x].
    + change (drop_leading_empty ("" :: ss)) with (drop_leading_empty ss).
      rewrite IH. split.
      * intros H. constructor; [reflexivity | exact H].
      * intros H. inversion H. assumption.
    + change (drop_leading_empty (String c x :: ss)) with (String c x :: ss).
      split; [discriminate |].
      intros H. inversion H. discriminate.
Qed.

Lemma drop_leading_empty_head (ss : list string) :
  match drop_leading_empty ss with
  | [] => True
  | x :: _ => x <> ""
  end.
Proof.
  induction ss as [| x ss IH]; [exact I |].
  destruct x as [| c x]; [exact IH | discriminate].
Qed.

(** X2: whatever the separator, [concatStringsSep] returns the empty
  string exactly when every element of the container is empty (an empty
  container included). *)
Theorem concatStringsSep_empty_iff (sep : string) (ss : list string) :
  concatStringsSep sep ss = "" <-> List.Forall (fun s => s = "") ss.
Proof.
  rewrite <- drop_leading_empty_nil. unfold concatStringsSep.
  rewrite loop_from_empty.
  pose proof (drop_leading_empty_head ss) as Hh.
  destruct (drop_leading_empty ss) as [| x l].
  - split; reflexivity.
  - rewrite concat_cons. split; [| discriminate].
    intros H. apply append_eq_nil in H. destruct H as [H _]. contradiction.
Qed.

Lemma push_back_loop (f : string -> string) (c res : list string) :
  List.fold_left (fun res s => (res ++ [f s])%list) c res
  = (res ++ List.map f c)%list.
Proof.
  revert res. induction c as [| x c IH]; intros res.
  - symmetry. apply app_nil_r.
  - change (List.fold_left (fun res s => (res ++ [f s])%list) c (res ++ [f x])%list
            = (res ++ f x :: List.map f c)%list).
    rewrite IH, <- app_assoc. reflexivity.
Qed.

Lemma quoteStrings_map (c : list string) : quoteStrings c = List.map quote c.
Proof. unfold quoteStrings. apply (push_back_loop quote c []). Qed.

Lemma quote_inj (s t : string) : quote s = quote t -> s = t.
Proof.
  unfold quote. rewrite !append_cons, !append_nil_l.
  intros H. inversion H as [E].
  apply append_inv_char in E. exact E.
Qed.

Example quoteStrings_two : quoteStrings ["a"; ""] = ["'a'"; "''"].
Proof. reflexivity. Qed.

(** X3: [quoteStrings] keeps the number and the order of the elements,
  puts each one between two single quotes, and loses nothing: two
  containers with the same quoted strings are the same. *)
Theorem quoteStrings_faithful (c : list string) :
  quoteStrings c = List.map (fun s => "'" ++ s ++ "'") c
  /\ List.length (quoteStrings c) = List.length c
  /\ (forall c', quoteStrings c = quoteStrings c' -> c = c').
Proof.
  split; [apply quoteStrings_map |]. split.
  - rewrite quoteStrings_map. apply List.length_map.
  - intros c'. rewrite !quoteStrings_map. revert c'.
    induction c as [| x c IH]; intros [| y c'] H;
      try discriminate H; [reflexivity |].
    pose proof (f_equal (List.hd "") H) as Hq.
    pose proof (f_equal (@List.tl string) H) as Hr.
    cbn [List.hd List.tl List.map] in Hq, Hr. f_equal.
    + apply quote_inj. exact Hq.
    + apply IH. exact Hr.
Qed.

(** X4: quoted strings are never empty, so joining the result of
  [quoteStrings] with [concatStringsSep] puts the separator between
  every two elements: it is the usual join, empty elements included. *)
Theorem concatStringsSep_quoteStrings (sep : string) (c : list string) :
  concatStringsSep sep (quoteStrings c) = String.concat sep (quoteStrings c).
Proof.
  unfold concatStringsSep.
  rewrite loop_from_empty, quoteStrings_map.
  destruct c as [| x c]; reflexivity.
Qed.

Example concat_quote_empty :
  concatStringsSep ", " (quoteStrings [""; "a"]) = "'', 'a'".
Proof. reflexivity. Qed.

End StringsFacts.

(** ** Container helpers *)

Module ContainersFacts.

Import Containers.

Lemma drain_firstn_skipn {A} (fuel : nat) (c : list A) :
  drain fuel c = (List.firstn fuel c, List.skipn fuel c).
Proof.
  revert c. induction fuel as [| fuel IH]; intros c; [reflexivity |].
  destruct c as [| v c]; [reflexivity |].
  cbn [drain remove_begin]. rewrite IH. reflexivity.
Qed.

Example remove_begin_empty : remove_begin (@nil nat) = (None, []).
Proof. reflexivity. Qed.

(** X5: [remove_begin] takes the elements out in iteration order and
  loses none: k calls in a loop yield the first k elements and leave the
  rest, and as soon as the loop has run as often as the container has
  elements it has yielded all of them and left the container empty. *)
Theorem remove_begin_drains {A} (fuel : nat) (c : list A) :
  drain fuel c = (List.firstn fuel c, List.skipn fuel c)
  /\ (List.length c <= fuel -> drain fuel c = (c, []))%nat
  /\ fst (drain fuel c) ++ snd (drain fuel c) = c.
Proof.
  rewrite drain_firstn_skipn. split; [reflexivity |]. split.
  - intros Hle. rewrite List.firstn_all2, List.skipn_all2 by exact Hle.
    reflexivity.
  - apply List.firstn_skipn.
Qed.

Lemma pops_empty {A} (k : nat) :
  pops k (@nil A) = (List.repeat None k, []).
Proof.
  induction k as [| k IH]; [reflexivity |].
  cbn [pops pop]. rewrite IH. reflexivity.
Qed.

Lemma pops_all {A} (xs : list A) (k : nat) :
  pops (List.length xs + k) xs = (List.map Some xs ++ List.repeat None k, []).
Proof.
  induction xs as [| x xs IH]; [apply pops_empty |].
  cbn [List.length Nat.add pops pop]. rewrite IH. reflexivity.
Qed.

Lemma push_all {A} (xs q : list A) :
  List.fold_left (fun q x => push x q) xs q = q ++ xs.
Proof.
  revert q. induction xs as [| x xs IH]; intros q.
  - symmetry. apply app_nil_r.
  - cbn [List.fold_left]. rewrite IH. unfold push.
    rewrite <- app_assoc. reflexivity.
Qed.

(** X6: [pop] is first in, first out and never fails: after the
  elements xs have been pushed on an empty queue, as many calls of [pop]
  return them in the order they were pushed, every further call returns
  no value, and the queue is left empty. *)
Theorem pop_fifo {A} (xs : list A) (k : nat) :
  pops (List.length xs + k) (List.fold_left (fun q x => push x q) xs [])
  = (List.map Some xs ++ List.repeat None k, []).
Proof. rewrite push_all. apply pops_all. Qed.

End ContainersFacts.

(** ** Counting *)

Module CountingFacts.

Import Counting.

Lemma in_type_nonempty (ty : IntType) (c : Z) :
  in_type ty c = true ->
  if is_signed ty
  then 0 < bits ty /\ - 2 ^ (bits ty - 1) <= c < 2 ^ (bits ty - 1)
  else 0 <= c < 2 ^ bits ty.
Proof.
  unfold in_type, int_min, int_max. intros H.
  apply andb_true_iff in H. destruct H as [H1 H2].
  apply Z.leb_le in H1, H2.
  destruct (is_signed ty); [| lia].
  split; [| lia].
  destruct (Z_lt_le_dec 0 (bits ty)) as [| Hle]; [assumption |].
  destruct (Z.eq_dec (bits ty) 0) as [E | E].
  - rewrite E in H1, H2. simpl in H1, H2. lia.
  - rewrite Z.pow_neg_r in H1, H2 by lia. lia.
Qed.

Lemma pow2_double (b : Z) : 0 < b -> 2 ^ b = 2 * 2 ^ (b - 1).
Proof.
  intros Hb. replace b with (Z.succ (b - 1)) at 1 by lia.
  apply Z.pow_succ_r. lia.
Qed.

Lemma convert_id (ty : IntType) (c : Z) :
  in_type ty c = true -> convert ty c = c.
Proof.
  intros H. apply in_type_nonempty in H. unfold convert.
  destruct (is_signed ty).
  - destruct H as [Hb Hc]. pose proof (pow2_double _ Hb) as E.
    rewrite Z.mod_small; lia.
  - apply Z.mod_small. exact H.
Qed.









Lemma wide_unsigned_add (ty : IntType) (c d : Z) :
  is_signed ty = false -> bits long <= bits ty ->
  add_assign ty c d = Some (convert ty (c + d)).
Proof.
  intros Hs Hb. unfold add_assign. rewrite Hs.
  destruct (Z.leb_spec (bits long) (bits ty)); [reflexivity | lia].
Qed.


Lemma wide_unsigned_construct (ty : IntType) (ds : list Z) (c : Z) :
  is_signed ty = false -> bits long <= bits ty ->
  exists ms c1, construct_all ty c ds = Some (ms, c1).
Proof.
  intros Hs Hb. revert c. induction ds as [| d ds IH]; intros c.
  - do 2 eexists. reflexivity.
  - cbn [construct_all]. unfold MaintainCount_ctor.
    rewrite (wide_unsigned_add ty c d Hs Hb).
    destruct (IH (convert ty (c + d))) as (ms & c1 & E).
    rewrite E. do 2 eexists. reflexivity.
Qed.

Example count_wraps :
  MaintainCount_ctor uint64_t 0 (-1) = Some ({| delta := -1 |}, 2 ^ 64 - 1).
Proof. reflexivity. Qed.

Example count_narrow_overflow :
  MaintainCount_ctor uint32_t 1 (2 ^ 63 - 1) = None.
Proof. reflexivity. Qed.





End CountingFacts.

(** ** [enumerate] *)

Module EnumerateFacts.

Import Enumerate.

Lemma skipn_nth_error {A} (c : list A) (p : nat) (x : A) :
  List.nth_error c p = Some x ->
  List.skipn p c = x :: List.skipn (S p) c.
Proof.
  revert p. induction c as [| y c IH]; intros [| p] H;
    try discriminate H.
  - inversion H. reflexivity.
  - cbn [List.nth_error] in H. exact (IH p H).
Qed.

Lemma range_for_from {A} (c : list A) (n : nat) :
  forall fuel k p,
    (p + n = List.length c)%nat -> (n <= fuel)%nat ->
    range_for fuel c {| i := k; iter := p |} (end_ c)
    = Some (List.combine (List.seq k n) (List.skipn p c)).
Proof.
  induction n as [| n IH]; intros fuel k p Hp Hf.
  - assert (E : neq {| i := k; iter := p |} (end_ c) = false).
    { unfold neq, end_. cbn [iter].
      replace p with (List.length c) by lia.
      rewrite Nat.eqb_refl. reflexivity. }
    destruct fuel; cbn [range_for]; rewrite E; reflexivity.
  - assert (E : neq {| i := k; iter := p |} (end_ c) = true).
    { unfold neq, end_. cbn [iter].
      destruct (Nat.eqb_spec p (List.length c)); [lia | reflexivity]. }
    destruct fuel as [| fuel]; [lia |].
    cbn [range_for]. rewrite E.
    destruct (List.nth_error c p) as [x |] eqn:Hx.
    + unfold deref. cbn [iter i]. rewrite Hx.
      unfold incr. cbn [iter i].
      rewrite (IH fuel (S k) (S p)) by lia.
      rewrite (skipn_nth_error c p x Hx). reflexivity.
    + apply List.nth_error_None in Hx. lia.
Qed.

Lemma map_snd_combine {A B} (l : list A) (l' : list B) :
  List.length l = List.length l' -> List.map snd (List.combine l l') = l'.
Proof.
  revert l'. induction l as [| x l IH]; intros [| y l'] H;
    try discriminate H; [reflexivity |].
  cbn [List.combine List.map snd]. f_equal. apply IH.
  cbn [List.length] in H. lia.
Qed.

Lemma map_fst_combine {A B} (l : list A) (l' : list B) :
  List.length l = List.length l' -> List.map fst (List.combine l l') = l.
Proof.
  revert l'. induction l as [| x l IH]; intros [| y l'] H;
    try discriminate H; [reflexivity |].
  cbn [List.combine List.map fst]. f_equal. apply IH.
  cbn [List.length] in H. lia.
Qed.

Example enumerate_three :
  enumerate ["a"; "b"; "c"]%string
  = Some [(0, "a"); (1, "b"); (2, "c")]%string%nat.
Proof. reflexivity. Qed.

Example enumerate_empty : enumerate (@nil nat) = Some [].
Proof. reflexivity. Qed.

(** X9: the range-based [for] over [enumerate(c)] ends, never
  dereferences the end of the container, and hands the body every
  element of [c] once, in order, tied to its position counted from 0;
  that [end()] carries the index 0 does not matter, and more fuel than
  the length of [c] changes nothing. *)
Theorem enumerate_indexes {A} (c : list A) :
  enumerate c = Some (List.combine (List.seq 0 (List.length c)) c)
  /\ (forall fuel, (List.length c <= fuel)%nat ->
        range_for fuel c (begin_ c) (end_ c) = enumerate c)
  /\ (forall xs, enumerate c = Some xs ->
        List.map snd xs = c
        /\ List.map fst xs = List.seq 0 (List.length c)).
Proof.
  assert (H : forall fuel, (List.length c <= fuel)%nat ->
              range_for fuel c (begin_ c) (end_ c)
              = Some (List.combine (List.seq 0 (List.length c)) c)).
  { intros fuel Hf.
    apply (range_for_from c (List.length c) fuel 0%nat 0%nat); lia. }
  assert (E : enumerate c = Some (List.combine (List.seq 0 (List.length c)) c))
    by (apply H; lia).
  split; [exact E |]. split.
  - intros fuel Hf. rewrite E. apply H, Hf.
  - intros xs Hxs. rewrite E in Hxs. inversion Hxs; subst xs. split.
    + apply map_snd_combine. apply List.length_seq.
    + apply map_fst_combine. apply List.length_seq.
Qed.

End EnumerateFacts.

(** ** What [string2Int] accepts *)

Module NumeralFacts.

Import IStream Parse Numeral.

Lemma extract_arithmetic (ty : IntType) (str : istringstream) :
  16 <= bits ty -> extract ty str = extract_int ty str.
Proof.
  intros Hw. unfold extract, is_char, is_bool.
  destruct (Z.eqb_spec (bits ty) 8); [lia |].
  destruct (Z.eqb_spec (bits ty) 1); [lia |].
  rewrite andb_false_r. reflexivity.
Qed.

(** [string2Int] for an arithmetic N ([short] or wider) without the
  stream: the guard, then white space, sign and digits, the range check,
  and the demand that nothing is left. *)
Lemma string2Int_unfold (ty : IntType) (s : string) :
  16 <= bits ty ->
  string2Int ty s =
  if String.eqb (String.substring 0 1 s) "-" && negb (is_signed ty)
  then None
  else
    let '(neg, s2) := sign (skipws s) in
    let '(v, k, rest) := digits 0 0 s2 in
    match k with
    | O => None
    | S _ =>
        if (if neg && is_signed ty then - int_min ty else int_max ty) <? v
        then None
        else match rest with
             | EmptyString => Some (if neg then convert ty (- v) else v)
             | String _ _ => None
             end
    end.
Proof.
  intros Hw. unfold string2Int. rewrite (extract_arithmetic ty _ Hw).
  unfold extract_int, open, good, get. cbn [buf failbit].
  destruct (String.eqb (String.substring 0 1 s) "-" && negb (is_signed ty));
    [reflexivity |].
  destruct (sign (skipws s)) as [neg s2].
  destruct (digits 0 0 s2) as [[v k] rest].
  destruct k as [| k]; [reflexivity |].
  destruct ((if neg && is_signed ty then - int_min ty else int_max ty) <? v);
    [reflexivity |].
  destruct rest; reflexivity.
Qed.

Lemma digit_code (c : ascii) :
  CType.isdigit c = true -> 0 <= CType.code c - 48 <= 9.
Proof.
  unfold CType.isdigit, CType.in_range. intros H.
  apply andb_true_iff in H. lia.
Qed.

Lemma digit_not_space (c : ascii) :
  CType.isdigit c = true -> CType.isspace c = false.
Proof.
  intros H. pose proof (digit_code c H) as Hc.
  unfold CType.isspace, CType.in_range.
  destruct (Z.eqb_spec (CType.code c) 32); [lia |].
  destruct (Z.leb_spec 9 (CType.code c)); [| reflexivity].
  destruct (Z.leb_spec (CType.code c) 13); [lia | reflexivity].
Qed.

Lemma space_not_minus (c : ascii) :
  CType.isspace c = true -> Ascii.eqb c "-" = false.
Proof.
  intros H. destruct (Ascii.eqb_spec c "-"%char) as [-> |]; [| reflexivity].
  discriminate H.
Qed.

Lemma digit_no_sign (c : ascii) (s : string) :
  CType.isdigit c = true ->
  sign (String c s) = (false, String c s)
  /\ Ascii.eqb c "-" = false.
Proof.
  intros H. split.
  - unfold sign.
    destruct (Ascii.eqb_spec c "-"%char) as [-> |]; [discriminate H |].
    destruct (Ascii.eqb_spec c "+"%char) as [-> |]; [discriminate H |].
    destruct c as [[] [] [] [] [] [] [] []]; try reflexivity; congruence.
  - destruct (Ascii.eqb_spec c "-"%char) as [-> |]; [discriminate H | reflexivity].
Qed.

Lemma substring_head (s : string) (c : ascii) :
  String.eqb (String.substring 0 1 s) (String c "") = starts_with c s.
Proof.
  destruct s as [| a s]; [reflexivity |].
  rewrite ParseFacts.substring_first. cbn [String.eqb starts_with].
  destruct (Ascii.eqb a c); reflexivity.
Qed.

Lemma digits_mono (s : string) :
  forall acc k v k' rest,
    digits acc k s = (v, k', rest) -> 0 <= acc ->
    acc <= v /\ (k <= k')%nat.
Proof.
  induction s as [| c s IH]; intros acc k v k' rest H Hacc.
  - cbn [digits] in H. inversion H; subst. split; lia.
  - cbn [digits] in H. destruct (CType.isdigit c) eqn:Hd.
    + pose proof (digit_code c Hd) as Hc.
      destruct (IH _ _ _ _ _ H) as [H1 H2]; [lia |]. split; lia.
    + inversion H; subst. split; lia.
Qed.

Lemma digits_count (s : string) :
  forall acc k v k' rest,
    digits acc k s = (v, k', rest) -> (k <= k')%nat.
Proof.
  induction s as [| c s IH]; intros acc k v k' rest H.
  - cbn [digits] in H. inversion H; subst. lia.
  - cbn [digits] in H. destruct (CType.isdigit c).
    + pose proof (IH _ _ _ _ _ H). lia.
    + inversion H; subst. lia.
Qed.

Lemma digits_all (s : string) :
  all_digits s = true ->
  forall acc k,
    digits acc k s = (decimal_from acc s, (k + String.length s)%nat, EmptyString).
Proof.
  induction s as [| c s IH]; intros Hs acc k.
  - cbn [digits decimal_from String.length]. rewrite Nat.add_0_r. reflexivity.
  - cbn [all_digits] in Hs. apply andb_true_iff in Hs. destruct Hs as [Hc Hs].
    cbn [digits decimal_from String.length]. rewrite Hc, (IH Hs).
    f_equal. f_equal. lia.
Qed.

Lemma rbegin_cons (c : ascii) (s : string) :
  s <> EmptyString -> CType.rbegin (String c s) = CType.rbegin s.
Proof. destruct s; [contradiction | reflexivity]. Qed.

Lemma rbegin_skipws (s : string) :
  skipws s <> EmptyString -> CType.rbegin (skipws s) = CType.rbegin s.
Proof.
  induction s as [| c s IH]; intros H; [reflexivity |].
  cbn [skipws] in *. destruct (CType.isspace c); [| reflexivity].
  rewrite (IH H). symmetry. apply rbegin_cons.
  intros E. subst s. apply H. reflexivity.
Qed.

Lemma rbegin_sign (s s2 : string) (neg : bool) :
  sign s = (neg, s2) -> s2 <> EmptyString ->
  CType.rbegin s2 = CType.rbegin s.
Proof.
  intros H Hne.
  assert (Hs : s2 = s \/ exists c, s = String c s2).
  { unfold sign in H. destruct s as [| c s]; [inversion H; auto |].
    destruct c as [[] [] [] [] [] [] [] []]; inversion H; eauto. }
  destruct Hs as [-> | [c ->]]; [reflexivity |].
  symmetry. apply rbegin_cons, Hne.
Qed.

Lemma digits_to_end (s : string) :
  forall acc k v k',
    digits acc k s = (v, k', EmptyString) -> (k < k')%nat ->
    exists c, CType.rbegin s = Some c /\ CType.isdigit c = true.
Proof.
  induction s as [| c s IH]; intros acc k v k' H Hk.
  - cbn [digits] in H. inversion H; subst. lia.
  - cbn [digits] in H. destruct (CType.isdigit c) eqn:Hd; [| discriminate H].
    destruct s as [| c' s].
    + exists c. split; [reflexivity | exact Hd].
    + rewrite rbegin_cons by discriminate.
      apply (IH _ _ _ _ H).
      cbn [digits] in H. destruct (CType.isdigit c'); [| discriminate H].
      pose proof (digits_count _ _ _ _ _ _ H) as Hm. lia.
Qed.

(** The parts of an accepted string. *)
Lemma string2Int_some (ty : IntType) (s : string) (n : Z) :
  16 <= bits ty ->
  string2Int ty s = Some n ->
  exists neg s2 v k,
    sign (skipws s) = (neg, s2)
    /\ digits 0 0 s2 = (v, S k, EmptyString)
    /\ v <= (if neg && is_signed ty then - int_min ty else int_max ty)
    /\ n = (if neg then convert ty (- v) else v).
Proof.
  intros Hw. rewrite (string2Int_unfold ty s Hw).
  destruct (String.eqb (String.substring 0 1 s) "-" && negb (is_signed ty));
    [discriminate |].
  destruct (sign (skipws s)) as [neg s2] eqn:Hs.
  destruct (digits 0 0 s2) as [[v k] rest] eqn:Hd.
  destruct k as [| k]; [discriminate |].
  destruct (Z.ltb_spec
              (if neg && is_signed ty then - int_min ty else int_max ty) v)
    as [| Hl]; [discriminate |].
  destruct rest; [| discriminate].
  intros Hn. inversion Hn. exists neg, s2, v, k.
  split; [reflexivity |]. split; [exact Hd |]. split; [exact Hl | reflexivity].
Qed.

Lemma convert_range (ty : IntType) (z : Z) :
  0 < bits ty -> int_min ty <= convert ty z <= int_max ty.
Proof.
  intros Hb. unfold int_min, int_max, convert.
  pose proof (CountingFacts.pow2_double _ Hb) as E.
  assert (Hp : 0 < 2 ^ (bits ty - 1)) by (apply Z.pow_pos_nonneg; lia).
  destruct (is_signed ty).
  - pose proof (Z.mod_pos_bound (z + 2 ^ (bits ty - 1)) (2 ^ bits ty)). lia.
  - pose proof (Z.mod_pos_bound z (2 ^ bits ty)). lia.
Qed.

Lemma extract_int_range (ty : IntType) (str0 str : istringstream) (n : Z) :
  0 < bits ty ->
  extract_int ty str0 = (str, n) -> failbit str = false ->
  int_min ty <= n <= int_max ty.
Proof.
  intros Hb He Hf. unfold extract_int in He.
  destruct (failbit str0) eqn:Hf0.
  { inversion He; subst. congruence. }
  destruct (sign (skipws (buf str0))) as [neg s2].
  destruct (digits 0 0 s2) as [[v k] rest] eqn:Hd.
  destruct k as [| k].
  { inversion He; subst. discriminate Hf. }
  destruct (Z.ltb_spec
              (if neg && is_signed ty then - int_min ty else int_max ty) v)
    as [| Hl].
  { inversion He; subst. discriminate Hf. }
  inversion He; subst. clear He.
  destruct (digits_mono _ _ _ _ _ _ Hd) as [Hv _]; [lia |].
  destruct neg; [apply convert_range, Hb |].
  cbn [andb] in Hl. split; [| exact Hl].
  unfold int_min. destruct (is_signed ty); [| exact Hv].
  pose proof (Z.pow_nonneg 2 (bits ty - 1)). lia.
Qed.

Lemma extract_range (ty : IntType) (str0 str : istringstream) (n : Z) :
  0 < bits ty ->
  extract ty str0 = (str, n) -> failbit str = false ->
  int_min ty <= n <= int_max ty.
Proof.
  intros Hb He Hf. unfold extract in He.
  destruct (is_char ty).
  - unfold extract_char in He.
    destruct (failbit str0) eqn:Hf0; [inversion He; subst; congruence |].
    destruct (skipws (buf str0)) as [| c rest];
      inversion He; subst; [discriminate Hf |].
    apply convert_range, Hb.
  - destruct (is_bool ty) eqn:Hbool;
      [| exact (extract_int_range ty str0 str n Hb He Hf)].
    unfold is_bool in Hbool. apply andb_true_iff in Hbool.
    destruct Hbool as [Hs Hw].
    apply negb_true_iff in Hs. apply Z.eqb_eq in Hw.
    unfold int_min, int_max. rewrite Hs, Hw. change (2 ^ 1 - 1) with 1.
    unfold extract_bool in He.
    destruct (extract_int int64_t str0) as [str' l].
    destruct (failbit str') eqn:Hf'; [inversion He; subst; congruence |].
    destruct (Z.eqb_spec l 0) as [E0 |]; cbn [orb] in He.
    + inversion He; subst. lia.
    + destruct (Z.eqb_spec l 1) as [E1 |]; inversion He; subst;
        [lia | discriminate Hf].
Qed.

(** Whatever [string2Int<N>] returns is a value of N. *)
Lemma string2Int_bounds (ty : IntType) (s : string) (n : Z) :
  0 < bits ty -> string2Int ty s = Some n ->
  int_min ty <= n <= int_max ty.
Proof.
  intros Hb H. unfold string2Int in H.
  destruct (String.eqb (String.substring 0 1 s) "-" && negb (is_signed ty));
    [discriminate H |].
  destruct (extract ty (open s)) as [str n'] eqn:He.
  unfold good in H.
  destruct (failbit str) eqn:Hf; [discriminate H |].
  cbn [negb andb] in H.
  destruct (get str); [discriminate H |].
  inversion H; subst.
  exact (extract_range ty _ _ _ Hb He Hf).
Qed.

Example string2Int_min : string2Int int32_t "-2147483648" = Some (- 2147483648).
Proof. reflexivity. Qed.

Example string2Int_below_min : string2Int int32_t "-2147483649" = None.
Proof. reflexivity. Qed.

(** The character types and [bool] are read in their own way. *)
Example string2Int_char : string2Int uint8_t "7" = Some 55.
Proof. reflexivity. Qed.

Example string2Int_char_letter : string2Int uint8_t "A" = Some 65.
Proof. reflexivity. Qed.

Example string2Int_signed_char_minus : string2Int int8_t "-5" = None.
Proof. reflexivity. Qed.

Example string2Int_bool_minus : string2Int bool_t " -1" = None.
Proof. reflexivity. Qed.

Example string2Int_bool_one : string2Int bool_t "1" = Some 1.
Proof. reflexivity. Qed.

Example string2Int_bool_two : string2Int bool_t "2" = None.
Proof. reflexivity. Qed.

(** X11: for an arithmetic N ([short] or wider, so neither a character
  type nor [bool]), on a non-empty string of decimal digits
  [string2Int<N>] returns the number the digits denote (leading zeros
  allowed) when it is at most the maximum of N, and no value when it is
  larger. *)
Theorem string2Int_digits (ty : IntType) (s : string) :
  16 <= bits ty ->
  s <> EmptyString -> all_digits s = true ->
  string2Int ty s
  = if decimal s <=? int_max ty then Some (decimal s) else None.
Proof.
  intros Hw Hne Hs. rewrite (string2Int_unfold ty s Hw).
  destruct s as [| c s]; [contradiction |].
  pose proof Hs as Hc. cbn [all_digits] in Hc.
  apply andb_true_iff in Hc. destruct Hc as [Hc _].
  destruct (digit_no_sign c s Hc) as [Hsign Hminus].
  rewrite (substring_head (String c s) "-"). cbn [starts_with].
  rewrite Hminus. cbn [andb].
  cbn [skipws]. rewrite (digit_not_space c Hc), Hsign.
  rewrite (digits_all (String c s) Hs 0 0%nat).
  cbn [String.length Nat.add andb]. fold (decimal (String c s)).
  rewrite Z.ltb_antisym. destruct (decimal (String c s) <=? int_max ty);
    reflexivity.
Qed.

Lemma string2Int_digits_witness :
  16 <= bits uint64_t
  /\ "007"%string <> EmptyString /\ all_digits "007" = true
  /\ string2Int uint64_t "007" = Some 7.
Proof.
  assert (Hw : 16 <= bits uint64_t) by (simpl; lia).
  assert (Hne : "007"%string <> EmptyString) by discriminate.
  assert (Hs : all_digits "007" = true) by reflexivity.
  split; [exact Hw |]. split; [exact Hne |]. split; [exact Hs |].
  exact (string2Int_digits uint64_t "007" Hw Hne Hs).
Defined.

(** X12: for an arithmetic N ([short] or wider), every string
  [string2Int<N>] accepts ends in a decimal digit; the empty string, and
  a numeral followed by white space, a letter or any other character,
  yield no value. *)
Theorem string2Int_ends_in_digit (ty : IntType) (s : string) (n : Z) :
  16 <= bits ty ->
  string2Int ty s = Some n ->
  exists c, CType.rbegin s = Some c /\ CType.isdigit c = true.
Proof.
  intros Hw H.
  destruct (string2Int_some ty s n Hw H) as (neg & s2 & v & k & Hs & Hd & _ & _).
  destruct (digits_to_end s2 0 0%nat v (S k) Hd) as (c & Hr & Hc); [lia |].
  exists c. split; [| exact Hc].
  assert (H2 : s2 <> EmptyString) by (intros ->; discriminate Hr).
  rewrite <- Hr, (rbegin_sign _ _ _ Hs H2).
  symmetry. apply rbegin_skipws. intros E. rewrite E in Hs.
  cbn [sign] in Hs. inversion Hs. congruence.
Qed.

Lemma string2Int_ends_in_digit_witness :
  16 <= bits int64_t
  /\ string2Int int64_t " +15" = Some 15
  /\ exists c, CType.rbegin " +15" = Some c /\ CType.isdigit c = true.
Proof.
  assert (Hw : 16 <= bits int64_t) by (simpl; lia).
  assert (H : string2Int int64_t " +15" = Some 15) by reflexivity.
  split; [exact Hw |]. split; [exact H |].
  exact (string2Int_ends_in_digit int64_t " +15" 15 Hw H).
Defined.

Lemma extract_skip (ty : IntType) (c : ascii) (s : string) :
  CType.isspace c = true ->
  extract ty (open (String c s)) = extract ty (open s).
Proof.
  intros Hc.
  unfold extract, extract_char, extract_bool, extract_int, open.
  cbn [buf failbit skipws]. rewrite Hc. reflexivity.
Qed.

(** X13: white space in front of the numeral is skipped: for a signed N,
  and for an unsigned N as long as the rest does not start with '-', a
  leading white-space character does not change the result. *)
Theorem string2Int_leading_space (ty : IntType) (c : ascii) (s : string) :
  CType.isspace c = true ->
  is_signed ty = true \/ starts_with "-" s = false ->
  string2Int ty (String c s) = string2Int ty s.
Proof.
  intros Hc Hs. unfold string2Int.
  rewrite (substring_head (String c s) "-"), (substring_head s "-").
  cbn [starts_with]. rewrite (space_not_minus c Hc). cbn [andb].
  assert (E : starts_with "-" s && negb (is_signed ty) = false).
  { destruct Hs as [-> | ->]; [apply andb_false_r | reflexivity]. }
  rewrite E, (extract_skip ty c s Hc). reflexivity.
Qed.

Lemma string2Int_leading_space_witness :
  CType.isspace " " = true
  /\ starts_with "-" "42" = false
  /\ string2Int uint64_t " 42" = string2Int uint64_t "42".
Proof.
  assert (Hc : CType.isspace " " = true) by reflexivity.
  assert (Hs : starts_with "-" "42" = false) by reflexivity.
  split; [exact Hc |]. split; [exact Hs |].
  exact (string2Int_leading_space uint64_t " " "42" Hc (or_intror Hs)).
Defined.

(** X14: the guard of [string2Int] against a minus for an unsigned N
  looks at the first character only: for an unsigned arithmetic N
  ([unsigned short] or wider), behind a white-space character a minus
  and digits are read by the stream, and the result is the negated
  number wrapped into the range of N. *)
Theorem string2Int_space_minus_wraps (ty : IntType) (c : ascii) (ds : string) :
  16 <= bits ty ->
  is_signed ty = false ->
  CType.isspace c = true ->
  ds <> EmptyString -> all_digits ds = true ->
  decimal ds <= int_max ty ->
  string2Int ty (String c (String "-" ds))
  = Some ((- decimal ds) mod 2 ^ bits ty).
Proof.
  intros Hw Hu Hc Hne Hs Hmax. rewrite (string2Int_unfold ty _ Hw).
  rewrite (substring_head _ "-"). cbn [starts_with skipws].
  rewrite (space_not_minus c Hc), Hc. cbn [andb].
  change (CType.isspace "-") with false. cbv iota.
  change (sign (String "-" ds)) with (true, ds). cbv beta iota.
  rewrite (digits_all ds Hs 0 0%nat). fold (decimal ds).
  destruct ds as [| d ds]; [contradiction |].
  cbn [String.length Nat.add]. rewrite Hu. cbn [andb].
  destruct (Z.ltb_spec (int_max ty) (decimal (String d ds))); [lia |].
  unfold convert. rewrite Hu. reflexivity.
Qed.

Lemma string2Int_space_minus_wraps_witness :
  string2Int uint32_t " -5" = Some 4294967291
  /\ string2Int uint32_t "-5" = None.
Proof.
  split; [| reflexivity].
  apply (string2Int_space_minus_wraps uint32_t " " "5");
    [simpl; lia | reflexivity | reflexivity | discriminate | reflexivity | ].
  vm_compute. discriminate.
Defined.

(** X17: for a signed arithmetic N ([short] or wider), a minus followed
  by decimal digits yields the negated number when the digits denote at
  most the magnitude of the minimum of N, and no value when they denote
  more: the minimum itself is accepted although its magnitude exceeds
  the maximum. *)
Theorem string2Int_negative (ty : IntType) (ds : string) :
  is_signed ty = true -> 16 <= bits ty ->
  ds <> EmptyString -> all_digits ds = true ->
  string2Int ty (String "-" ds)
  = if decimal ds <=? - int_min ty then Some (- decimal ds) else None.
Proof.
  intros Hsg Hw Hne Hs. rewrite (string2Int_unfold ty _ Hw).
  assert (Hb : 0 < bits ty) by lia.
  rewrite Hsg, andb_false_r.
  change (sign (skipws (String "-" ds))) with (true, ds). cbv beta iota.
  rewrite (digits_all ds Hs 0 0%nat). fold (decimal ds).
  destruct (digits_mono ds 0 0%nat _ _ _ (digits_all ds Hs 0 0%nat)) as [Hv _];
    [lia |].
  fold (decimal ds) in Hv.
  destruct ds as [| d ds]; [contradiction |].
  cbn [String.length Nat.add andb]. rewrite Z.ltb_antisym.
  destruct (Z.leb_spec (decimal (String d ds)) (- int_min ty)) as [Hle |];
    [| reflexivity].
  cbn [negb]. f_equal. apply CountingFacts.convert_id.
  unfold in_type, int_min, int_max in *. rewrite Hsg in *.
  assert (Hp : 0 < 2 ^ (bits ty - 1)) by (apply Z.pow_pos_nonneg; lia).
  apply andb_true_iff. split; apply Z.leb_le; lia.
Qed.

Lemma string2Int_negative_witness :
  string2Int int32_t "-2147483648" = Some (- 2147483648)
  /\ string2Int int32_t "-2147483649" = None.
Proof.
  split.
  - apply (string2Int_negative int32_t "2147483648");
      [reflexivity | simpl; lia | discriminate | reflexivity].
  - apply (string2Int_negative int32_t "2147483649");
      [reflexivity | simpl; lia | discriminate | reflexivity].
Defined.

End NumeralFacts.

(** ** More on the unit suffix *)

Module UnitPrefixFacts.

Import Parse.

Local Open Scope string_scope.

Lemma rbegin_last (s : string) (c : ascii) :
  CType.rbegin (s ++ String c "") = Some c.
Proof.
  induction s as [| a s IH]; [reflexivity |].
  rewrite StringsFacts.append_cons, NumeralFacts.rbegin_cons; [exact IH |].
  destruct s; discriminate.
Qed.

Lemma drop_last_last (s : string) (c : ascii) :
  CType.drop_last (s ++ String c "") = s.
Proof.
  induction s as [| a s IH]; [reflexivity |].
  rewrite StringsFacts.append_cons.
  destruct s as [| b s].
  - reflexivity.
  - change (String a (CType.drop_last (String b s ++ String c ""))
            = String a (String b s)).
    rewrite IH. reflexivity.
Qed.

Lemma toupper_toupper (c : ascii) :
  CType.toupper (CType.toupper c) = CType.toupper c.
Proof. destruct c as [[] [] [] [] [] [] [] []]; reflexivity. Qed.

Lemma toupper_not_alpha (c : ascii) :
  CType.isalpha (CType.toupper c) = false -> CType.toupper c = c.
Proof.
  destruct c as [[] [] [] [] [] [] [] []]; intros H;
    try reflexivity; discriminate H.
Qed.

Example unit_prefix_lower_upper :
  string2IntWithUnitPrefix uint64_t "2m" = string2IntWithUnitPrefix uint64_t "2M".
Proof. reflexivity. Qed.

(** X15: [string2IntWithUnitPrefix] reads the last character through
  [toupper] only: replacing it by its upper-case form changes neither
  the value returned nor the error raised, so "10k" and "10K" are the
  same input. *)
Theorem unit_suffix_case_insensitive (ty : IntType) (s : string) (c : ascii) :
  string2IntWithUnitPrefix ty (s ++ String c "")
  = string2IntWithUnitPrefix ty (s ++ String (CType.toupper c) "").
Proof.
  unfold string2IntWithUnitPrefix.
  rewrite !rbegin_last, !drop_last_last, toupper_toupper.
  destruct (CType.isalpha (CType.toupper c)) eqn:Ha; [reflexivity |].
  rewrite (toupper_not_alpha c Ha). reflexivity.
Qed.

Lemma mul_one (ty : IntType) (n : Z) :
  int_min ty <= n <= int_max ty -> mul ty n 1 = Returns n.
Proof.
  intros Hn. rewrite <- (Z.mul_1_r n) at 2.
  apply ParseFacts.mul_within. rewrite Z.mul_1_r.
  apply ParseFacts.in_type_intro, Hn.
Qed.

Lemma in_type_one_bits (ty : IntType) : in_type ty 1 = true -> 0 < bits ty.
Proof.
  intros H. apply CountingFacts.in_type_nonempty in H.
  destruct (is_signed ty); [tauto |].
  destruct (Z_lt_le_dec 0 (bits ty)) as [| Hle]; [assumption |].
  destruct (Z.eq_dec (bits ty) 0) as [E | E].
  - rewrite E in H. simpl in H. lia.
  - rewrite Z.pow_neg_r in H by lia. lia.
Qed.

(** X16: on a string that is empty or does not end in a letter,
  [string2IntWithUnitPrefix<N>] is [string2Int<N>]: it returns the value
  [string2Int] returns, and raises UsageError naming the whole string
  where [string2Int] returns none. *)
Theorem unit_prefix_without_suffix (ty : IntType) (s : string) :
  in_type ty 1 = true ->
  (forall c, CType.rbegin s = Some c -> CType.isalpha c = false) ->
  string2IntWithUnitPrefix ty s
  = match string2Int ty s with
    | Some n => Returns n
    | None => Throws (UsageError ("'" ++ s ++ "' is not an integer"))
    end.
Proof.
  intros H1 Hs. unfold string2IntWithUnitPrefix.
  assert (E : match CType.rbegin s with
              | Some c => CType.isalpha (CType.toupper c) = false
              | None => True
              end).
  { destruct (CType.rbegin s) as [c |]; [| exact I].
    rewrite ParseFacts.isalpha_toupper. apply Hs. reflexivity. }
  assert (Hone : narrow ty 1 = 1) by (apply ParseFacts.narrow_within, H1).
  destruct (CType.rbegin s) as [c |]; [rewrite E |]; rewrite Hone;
    (destruct (string2Int ty s) as [n |] eqn:Hn; [| reflexivity]);
    apply mul_one;
    apply (NumeralFacts.string2Int_bounds ty s n (in_type_one_bits ty H1) Hn).
Qed.

Lemma unit_prefix_without_suffix_witness :
  in_type uint64_t 1 = true
  /\ string2IntWithUnitPrefix uint64_t "12 "
     = Throws (UsageError "'12 ' is not an integer").
Proof.
  assert (H1 : in_type uint64_t 1 = true) by reflexivity.
  split; [exact H1 |].
  apply (unit_prefix_without_suffix uint64_t "12 " H1).
  intros c Hc. inversion Hc. reflexivity.
Defined.

End UnitPrefixFacts.
